(** * Spark: the ephemeral group directory and message store

    A shallow embedding of the in-memory [backend] object and of the three
    application functions that drive it ([create], [send], [loadNearby]) of
    [app/(tabs)/index.tsx], followed by the properties of the store.

    Modelling conventions.
    - A JavaScript [number] holding a coordinate or a radius is an IEEE 754
      binary64 value: Rocq's primitive [float], with the same operations
      ([-], [*], [+], [sqrt], [<=]).
    - A [number] holding a timestamp is an integer number of milliseconds
      ([Date.now()]); timestamps are [Z].  Every timestamp the program builds
      ([now], [now + 86400000]) stays below 2^53 in absolute value, where
      binary64 arithmetic on integers is exact.
    - A [string] is its sequence of UTF-16 code units, [list N].
    - [backend.messages] is an object used as a dictionary from group ids to
      message arrays: a [gmap].  Ids come from [uuid()] (at most seven
      characters among 0-9 and a-z), so an id never names a property that a
      plain object inherits; only own properties are modelled.
    - [Date.now()] and [uuid()] are inputs of the functions that call them.
    - Distances are stated in exact arithmetic, on the rationals that the
      binary64 coordinates denote; the rounding analysis of the distance
      filter runs on real numbers, over the definitions of [SpecFloat]. *)

From Stdlib Require Import ZArith QArith List Ascii String DecimalString Floats.
From Stdlib Require Import Sorted Permutation Lia.
From Stdlib Require Import Reals Lra Psatz Qreals RMicromega.
From stdpp Require Import gmap list.
Import ListNotations.

#[local] Open Scope Z_scope.

(** ** Strings *)

(** A string is the list of its UTF-16 code units, [list N]. *)
Module JsString.

(** A literal written with ASCII characters. *)
Fixpoint lit (s : String.string) : list N :=
  match s with
  | String.EmptyString => []
  | String.String c s' => Ascii.N_of_ascii c :: lit s'
  end.

(** The code units that [String.prototype.trim] strips: ECMAScript
    WhiteSpace and LineTerminator. *)
Definition isWhiteSpace (c : N) : bool :=
  ((9 <=? c) && (c <=? 13) || (c =? 32) || (c =? 160) || (c =? 5760)
   || (8192 <=? c) && (c <=? 8202) || (c =? 8232) || (c =? 8233)
   || (c =? 8239) || (c =? 8287) || (c =? 12288) || (c =? 65279))%N.

Fixpoint trimStart (s : list N) : list N :=
  match s with
  | [] => []
  | c :: s' => if isWhiteSpace c then trimStart s' else s
  end.

Definition trimEnd (s : list N) : list N := rev (trimStart (rev s)).

Definition trim (s : list N) : list N := trimEnd (trimStart s).

(** Truthiness of a string: the empty string is the only falsy one. *)
Definition truthy (s : list N) : bool :=
  match s with [] => false | _ :: _ => true end.

(** [a || b] on strings. *)
Definition or_else (a b : list N) : list N := if truthy a then a else b.

(** Empty, or made of white space only. *)
Definition blank (s : list N) : bool := forallb isWhiteSpace s.

End JsString.

(** ** Types *)

Module Group.
Record t : Type := mk {
  id : list N;
  name : list N;
  createdAt : Z;
  expiresAt : Z;
  lat : float;
  lng : float;
  anonymousAllowed : bool;
  icebreaker : option (list N)
}.
End Group.

Module Message.
Record t : Type := mk {
  id : list N;
  text : list N;
  createdAt : Z;
  displayName : list N;
  anonymous : bool
}.
End Message.

Record Coords : Type := mkCoords { latitude : float; longitude : float }.

(** The fallback position [{ latitude: 14.676, longitude: 121.0437 }] of
    [create] and of the start-up effect; the literals are written as the
    binary64 values they denote. *)
Definition manila : Coords :=
  mkCoords 0x1.d5a1cac083127p+3%float 0x1.e42cbfb15b574p+6%float.

(** [ICEBREAKERS[0]], the initial value of the icebreaker field. *)
Definition icebreaker0 : list N :=
  JsString.lit "Share a song you're vibing to right now.".

(** ** The in-memory backend *)

Record Backend : Type := mkBackend {
  groups : list Group.t;
  messages : gmap (list N) (list Message.t)
}.

Definition backend0 : Backend := mkBackend [] ∅.

(** [24 * 60 * 60 * 1000] *)
Definition DAY_MS : Z := 24 * 60 * 60 * 1000.

(** [Math.sqrt(dLat * dLat + dLng * dLng)] in the filter callback of
    [listGroupsNearby]: the distance in degrees, as the code computes it. *)
Definition degrees (lat lng : float) (g : Group.t) : float :=
  let dLat := (Group.lat g - lat)%float in
  let dLng := (Group.lng g - lng)%float in
  PrimFloat.sqrt (dLat * dLat + dLng * dLng)%float.

(** [Math.sqrt(dLat * dLat + dLng * dLng) * 111], the left-hand side of the
    comparison. *)
Definition distanceKm (lat lng : float) (g : Group.t) : float :=
  (degrees lat lng g * 111)%float.

(** The filter callback of [listGroupsNearby]. *)
Definition isNearby (lat lng radiusKm : float) (g : Group.t) : bool :=
  (distanceKm lat lng g <=? radiusKm)%float.

Definition createGroup (group : Group.t) (b : Backend) : Backend * Group.t :=
  (mkBackend (groups b ++ [group]) (<[Group.id group := []]> (messages b)),
   group).

(** [radiusKm = 50] when the argument is left out. *)
Definition listGroupsNearby (lat lng : float) (radiusKm : option float)
    (b : Backend) : list Group.t :=
  List.filter (isNearby lat lng (default 50%float radiusKm)) (groups b).

Definition postMessage (groupId : list N) (message : Message.t)
    (b : Backend) : Backend * Message.t :=
  let ms := match messages b !! groupId with
            | Some _ => messages b
            | None => <[groupId := []]> (messages b)
            end in
  (mkBackend (groups b) (alter (λ l, l ++ [message]) groupId ms), message).

Definition getMessages (groupId : list N) (b : Backend) : list Message.t :=
  default [] (messages b !! groupId).

(** [Object.keys(this.messages)].  The engine lists the keys in insertion
    order, the map in its own; [removeExpired] is shown below not to depend
    on the order ([removeExpired_lookup]). *)
Definition keys (m : gmap (list N) (list Message.t)) : list (list N) :=
  (map_to_list m).*1.

(** [this.groups.find((x) => x.id === groupId)] *)
Definition findGroup (live : list Group.t) (groupId : list N) : option Group.t :=
  List.find (λ x, bool_decide (Group.id x = groupId)) live.

(** One turn of the [forEach] callback of [removeExpired]. *)
Definition dropOrphan (live : list Group.t)
    (m : gmap (list N) (list Message.t)) (groupId : list N)
    : gmap (list N) (list Message.t) :=
  match findGroup live groupId with
  | Some _ => m
  | None => delete groupId m
  end.

Definition removeExpired (now : Z) (b : Backend) : Backend :=
  let live := List.filter (λ g, Group.expiresAt g >? now) (groups b) in
  mkBackend live (fold_left (dropOrphan live) (keys (messages b)) (messages b)).

(** ** The application functions *)

(** [Array.prototype.sort] with a comparison function: a stable sort that
    puts [a] after [b] when [cmp a b > 0].  On a consistent comparison
    function, as here, every conforming engine returns this order. *)
Section Sort.
Context {A : Type} (cmp : A → A → Z).

Fixpoint insert (x : A) (l : list A) : list A :=
  match l with
  | [] => [x]
  | y :: l' => if cmp x y <=? 0 then x :: l else y :: insert x l'
  end.

Fixpoint sort (l : list A) : list A :=
  match l with
  | [] => []
  | x :: l' => insert x (sort l')
  end.

(** The order that the comparison function induces. *)
Definition notAfter (a b : A) : Prop := cmp a b <= 0.
End Sort.

(** [(a, b) => a.expiresAt - b.expiresAt] *)
Definition byExpiry (a b : Group.t) : Z := Group.expiresAt a - Group.expiresAt b.

(** [loadNearby]: returns the backend after the sweep and the list handed to
    [setGroups].  [sort] works on the fresh array that [filter] returned, so
    [backend.groups] keeps its order. *)
Definition loadNearby (loc : Coords) (now : Z) (b : Backend)
    : Backend * list Group.t :=
  let b' := removeExpired now b in
  (b', sort byExpiry
         (listGroupsNearby (latitude loc) (longitude loc) (Some 50%float) b')).

(** [create] of [CreateGroupView].  [name], [anonAllowed] and [icebreaker] are
    the form fields, [myLocation] the prop, [device] the outcome of
    [getDeviceLocation()] ([None] when it throws), [id] the value of [uuid()]
    and [now] the value of [Date.now()].  The earlier version of the screen,
    with [getMockLocation()], is the case [device = Some manila]. *)
Definition create (name : list N) (anonAllowed : bool) (icebreaker : list N)
    (myLocation device : option Coords) (id : list N) (now : Z)
    (b : Backend) : Backend * Group.t :=
  let loc := match myLocation with
             | Some l => l
             | None => match device with Some l => l | None => manila end
             end in
  let expiresAt := now + DAY_MS in
  let group :=
    Group.mk id (JsString.or_else name (JsString.lit "Untitled Spark")) now
      expiresAt (latitude loc) (longitude loc) anonAllowed (Some icebreaker) in
  createGroup group b.

(** What a call of [send] does besides updating the text field. *)
Inductive SendResult : Type :=
| SendIgnored
| SendAlert (text : list N)
| SendPosted (m : Message.t).

Definition ANON_ALERT : list N :=
  JsString.lit "Anonymous posts are not allowed in this Spark.".

(** [send] of [ChatView].  [group] and [nameHandle] are props, [text] and
    [anon] the local state, [id] the value of [uuid()] and [now] the value of
    [Date.now()]. *)
Definition send (group : Group.t) (nameHandle : list N) (anon : bool)
    (text : list N) (id : list N) (now : Z) (b : Backend)
    : Backend * SendResult :=
  if negb (JsString.truthy (JsString.trim text)) then (b, SendIgnored)
  else if anon && negb (Group.anonymousAllowed group) then (b, SendAlert ANON_ALERT)
  else
    let msg :=
      Message.mk id (JsString.trim text) now
        (if anon then JsString.lit "Anonymous"
         else JsString.or_else nameHandle (JsString.lit "Guest"))
        anon in
    let '(b', m) := postMessage (Group.id group) msg b in
    (b', SendPosted m).

(** ** Runs of the application

    The backend is reached only through [create], [send], [loadNearby] and the
    30-second timer that calls [removeExpired]. *)
Inductive Event : Type :=
| EvCreate (name : list N) (anonAllowed : bool) (icebreaker : list N)
    (myLocation device : option Coords) (id : list N) (now : Z)
| EvSend (group : Group.t) (nameHandle : list N) (anon : bool)
    (text : list N) (id : list N) (now : Z)
| EvLoadNearby (loc : Coords) (now : Z)
| EvTimer (now : Z).

Definition step (b : Backend) (e : Event) : Backend :=
  match e with
  | EvCreate name anonAllowed icebreaker myLocation device id now =>
      fst (create name anonAllowed icebreaker myLocation device id now b)
  | EvSend group nameHandle anon text id now =>
      fst (send group nameHandle anon text id now b)
  | EvLoadNearby loc now => fst (loadNearby loc now b)
  | EvTimer now => removeExpired now b
  end.

Definition run (b : Backend) (es : list Event) : Backend := fold_left step es b.

(** The id that an event registers a group under, if it creates one. *)
Definition createdId (e : Event) : option (list N) :=
  match e with
  | EvCreate _ _ _ _ _ id _ => Some id
  | _ => None
  end.

(** Events that sweep the store. *)
Definition sweeps (e : Event) : bool :=
  match e with
  | EvLoadNearby _ _ | EvTimer _ => true
  | _ => false
  end.

(** ** Exact values of binary64 numbers

    Used to state distances the way geometry does, in exact arithmetic. *)

(** A number that is neither an infinity nor NaN ([Number.isFinite]). *)
Definition isFinite (x : float) : bool :=
  match Prim2SF x with
  | S754_zero _ | S754_finite _ _ _ => true
  | _ => false
  end.

(** The rational that a finite binary64 number denotes (0 otherwise). *)
Definition exact (x : float) : Q :=
  match Prim2SF x with
  | S754_finite s m e =>
      ((if s then -1 else 1) * inject_Z (Z.pos m) * Qpower 2 e)%Q
  | _ => 0%Q
  end.

(** The group lies more than [radiusKm / 111] degrees from the origin,
    measured by the Euclidean distance on exact latitudes and longitudes:
    [sqrt (dLat^2 + dLng^2) > radiusKm / 111], written without the root. *)
Definition fartherThan (lat lng radiusKm : float) (g : Group.t) : Prop :=
  let dLat := (exact (Group.lat g) - exact lat)%Q in
  let dLng := (exact (Group.lng g) - exact lng)%Q in
  let r := (exact radiusKm / 111)%Q in
  (r < 0)%Q ∨ (r * r < dLat * dLat + dLng * dLng)%Q.

(** The same with the margin that the roundings of the computation need:
    the group lies more than [radiusKm / 111 * (1 + 2^-49) + 2^-535] degrees
    from the origin, in exact arithmetic.  The relative part covers the
    roundings of the two differences, the two squares, the sum, the root and
    the product by 111; the absolute part covers the squares that underflow. *)
Definition beyondMargin (lat lng radiusKm : float) (g : Group.t) : Prop :=
  let dLat := (exact (Group.lat g) - exact lat)%Q in
  let dLng := (exact (Group.lng g) - exact lng)%Q in
  let r := (exact radiusKm / 111 * (1 + Qpower 2 (-49)) + Qpower 2 (-535))%Q in
  (r < 0)%Q ∨ (r * r < dLat * dLat + dLng * dLng)%Q.

(** ** Values of binary64 numbers as real numbers

    The vocabulary of the rounding analysis of the distance filter, over the
    specification [spec_float] of the binary64 operations. *)

(** [2^e] *)
Definition p2 (e : Z) : R := powerRZ 2 e.

(** The absolute value of a finite number (0 otherwise). *)
Definition magR (x : spec_float) : R :=
  match x with
  | S754_finite _ m e => (IZR (Z.pos m) * p2 e)%R
  | _ => 0%R
  end.

(** The value of a finite number (0 otherwise). *)
Definition valR (x : spec_float) : R :=
  match x with
  | S754_finite s m e => ((if s then -1 else 1) * IZR (Z.pos m) * p2 e)%R
  | _ => 0%R
  end.

(** Neither an infinity nor NaN. *)
Definition isFinSF (x : spec_float) : bool :=
  match x with
  | S754_zero _ | S754_finite _ _ _ => true
  | _ => false
  end.

(** Zero of either sign, positive, plus infinity or NaN. *)
Definition notNeg (x : spec_float) : Prop :=
  match x with
  | S754_infinity true | S754_finite true _ _ => False
  | _ => True
  end.

(** A number with the sign bit [s]. *)
Definition signIs (s : bool) (x : spec_float) : Prop :=
  match x with
  | S754_zero s' | S754_infinity s' | S754_finite s' _ _ => s' = s
  | S754_nan => False
  end.

(** The relative error of one rounding, [2^-52], and the least positive
    binary64 number, [2^-1074]. *)
Definition u52 : R := p2 (-52).
Definition eta : R := p2 (-1074).

(** The exponent is one of the format. *)
Definition expOK (x : spec_float) : Prop :=
  match x with
  | S754_finite _ _ e => -1074 <= e
  | _ => True
  end.

(** The constant [111] of the filter. *)
Definition c111 : spec_float := S754_finite false 7810930603720704 (-46).

(** ** Sample data

    Concrete groups, messages and runs on which the statements below are
    evaluated. *)

(** A group created at time 1000 at the fallback position, anonymous posts
    not allowed. *)
Definition studyRoom : Group.t :=
  Group.mk (JsString.lit "k3j9x2a") (JsString.lit "Study grind room")
    1000 (1000 + DAY_MS) (latitude manila) (longitude manila) false
    (Some icebreaker0).

(** The event that creates [studyRoom]. *)
Definition createStudyRoom : Event :=
  EvCreate (JsString.lit "Study grind room") false icebreaker0 (Some manila)
    None (JsString.lit "k3j9x2a") 1000.

(** A second group, created one minute later at the same place. *)
Definition createAfterparty : Event :=
  EvCreate (JsString.lit "Concert afterparty") true icebreaker0 None None
    (JsString.lit "q8w1e5r") 61000.

(** The group that [createAfterparty] creates: no position is known and the
    device gives none, so it sits at the fallback position. *)
Definition afterparty : Group.t :=
  Group.mk (JsString.lit "q8w1e5r") (JsString.lit "Concert afterparty")
    61000 (61000 + DAY_MS) (latitude manila) (longitude manila) true
    (Some icebreaker0).

(** A named post of "hello" in [studyRoom]. *)
Definition sayHello : Event :=
  EvSend studyRoom (JsString.lit "ana") false (JsString.lit " hello ")
    (JsString.lit "m4n5b6v") 2000.

(** Both groups created, one message posted. *)
Definition evening : list Event := [createStudyRoom; createAfterparty; sayHello].

(** An id that no group was created under. *)
Definition strayId : list N := JsString.lit "a1b2c3d".

Definition hello : Message.t :=
  Message.mk (JsString.lit "m4n5b6v") (JsString.lit "hello") 2000
    (JsString.lit "Guest") false.

(** Three spaces: a blank text. *)
Definition spaces : list N := [32; 32; 32]%N.

Definition origin : Coords := mkCoords 0%float 0%float.

(** The binary64 number next above 50/111, printed 0.45045045045045046. *)
Definition borderLat : float := 0x1.cd42e2049cd43p-2%float.

(** A group created at latitude [borderLat] on the zero meridian. *)
Definition trafficJam : Group.t :=
  Group.mk (JsString.lit "z7x6c5v") (JsString.lit "Stuck in traffic")
    1000 (1000 + DAY_MS) borderLat 0%float true (Some icebreaker0).

(** The event that creates [trafficJam]. *)
Definition createTrafficJam : Event :=
  EvCreate (JsString.lit "Stuck in traffic") true icebreaker0
    (Some (mkCoords borderLat 0%float)) None (JsString.lit "z7x6c5v") 1000.

(** A binary64 number above 79/111, both exactly and against the quotient
    [79 / 111] taken in binary64; printed 0.7117117117117118. *)
Definition owlLat : float := 0x1.6c657a3bf6c66p-1%float.

(** A group created at latitude [owlLat] on the zero meridian. *)
Definition nightOwls : Group.t :=
  Group.mk (JsString.lit "h2j4k6l") (JsString.lit "Midnight motivation")
    1000 (1000 + DAY_MS) owlLat 0%float true (Some icebreaker0).

(** The event that creates [nightOwls]. *)
Definition createNightOwls : Event :=
  EvCreate (JsString.lit "Midnight motivation") true icebreaker0
    (Some (mkCoords owlLat 0%float)) None (JsString.lit "h2j4k6l") 1000.

(** ** The order of binary64 numbers

    A key that places every number but NaN in the order that [<=] compares
    them in: the class first (negative infinity, negative, zero, positive,
    positive infinity), then exponent and mantissa. *)
Definition floatKey (x : spec_float) : option (Z * Z * Z) :=
  match x with
  | S754_nan => None
  | S754_infinity true => Some (-2, 0, 0)
  | S754_finite true m e => Some (-1, - e, Z.neg m)
  | S754_zero _ => Some (0, 0, 0)
  | S754_finite false m e => Some (1, e, Z.pos m)
  | S754_infinity false => Some (2, 0, 0)
  end.

(** The lexicographic order on keys. *)
Definition lexLe (a b : Z * Z * Z) : Prop :=
  let '(a1, a2, a3) := a in
  let '(b1, b2, b3) := b in
  a1 < b1 ∨ (a1 = b1 ∧ (a2 < b2 ∨ (a2 = b2 ∧ a3 <= b3))).

(** ** The remaining time of a group *)

(** How the template literal prints an integer: its decimal digits. *)
Definition decimal (n : Z) : list N :=
  JsString.lit (NilZero.string_of_int (Z.to_int n)).

(** The hours, minutes and seconds of [timeLeft].  [expiryTs] and
    [Date.now()] are integers, so [diff] is a non-negative integer below
    2^53, where [Math.floor(diff / d)] is the integer quotient; [%] is the
    remainder of the truncated division. *)
Definition timeLeftParts (expiryTs now : Z) : Z * Z * Z :=
  let diff := Z.max 0 (expiryTs - now) in
  let hours := diff / (1000 * 60 * 60) in
  let minutes := Z.rem diff (1000 * 60 * 60) / (1000 * 60) in
  let seconds := Z.rem diff (1000 * 60) / 1000 in
  (hours, minutes, seconds).

(** [timeLeft(expiryTs)], with [now] the value of [Date.now()]. *)
Definition timeLeft (expiryTs now : Z) : list N :=
  let '(hours, minutes, seconds) := timeLeftParts expiryTs now in
  decimal hours ++ JsString.lit "h " ++ decimal minutes ++ JsString.lit "m "
    ++ decimal seconds ++ JsString.lit "s".

(** ** The screens

    The state of [SparkApp] together with the backend, and the handlers of
    the three views as transitions.  A handler runs on the state of the last
    render. *)

Inductive View : Type := ViewDiscover | ViewCreate | ViewChat.

Module SparkApp.
Record t : Type := mk {
  view : View;
  groups : list Group.t;
  myLocation : option Coords;
  selectedGroup : option Group.t;
  nameHandle : list N
}.
End SparkApp.

Record World : Type := mkWorld { app : SparkApp.t; store : Backend }.

(** The first render: [useState] initial values and the empty backend. *)
Definition world0 : World :=
  mkWorld (SparkApp.mk ViewDiscover [] None None []) backend0.

Definition setView (v : View) (a : SparkApp.t) : SparkApp.t :=
  SparkApp.mk v (SparkApp.groups a) (SparkApp.myLocation a)
    (SparkApp.selectedGroup a) (SparkApp.nameHandle a).

Definition setGroups (l : list Group.t) (a : SparkApp.t) : SparkApp.t :=
  SparkApp.mk (SparkApp.view a) l (SparkApp.myLocation a)
    (SparkApp.selectedGroup a) (SparkApp.nameHandle a).

Definition setMyLocation (loc : Coords) (a : SparkApp.t) : SparkApp.t :=
  SparkApp.mk (SparkApp.view a) (SparkApp.groups a) (Some loc)
    (SparkApp.selectedGroup a) (SparkApp.nameHandle a).

Definition setSelectedGroup (g : option Group.t) (a : SparkApp.t) : SparkApp.t :=
  SparkApp.mk (SparkApp.view a) (SparkApp.groups a) (SparkApp.myLocation a) g
    (SparkApp.nameHandle a).

Definition setNameHandle (h : list N) (a : SparkApp.t) : SparkApp.t :=
  SparkApp.mk (SparkApp.view a) (SparkApp.groups a) (SparkApp.myLocation a)
    (SparkApp.selectedGroup a) h.

(** [loadNearby] of [SparkApp], with its [setGroups(list)]. *)
Definition appLoadNearby (loc : Coords) (now : Z) (w : World) : World :=
  let '(b', list) := loadNearby loc now (store w) in
  mkWorld (setGroups list (app w)) b'.

Definition openCreate (w : World) : World :=
  mkWorld (setView ViewCreate (app w)) (store w).

Definition openDiscover (w : World) : World :=
  mkWorld (setSelectedGroup None (setView ViewDiscover (app w))) (store w).

Definition openChat (group : Group.t) (w : World) : World :=
  mkWorld (setView ViewChat (setSelectedGroup (Some group) (app w))) (store w).

(** The [onCreated] callback given to [CreateGroupView].  [myLocation] is
    the value that the callback closed over, that of the render in which
    "Create Spark" was pressed; [now] is the [Date.now()] of the
    [loadNearby] it may call. *)
Definition onCreated (myLocation : option Coords) (g : Group.t) (now : Z)
    (w : World) : World :=
  let w' := mkWorld (setView ViewChat (setSelectedGroup (Some g) (app w)))
              (store w) in
  match myLocation with
  | Some loc => appLoadNearby loc now w'
  | None => w'
  end.

(** The start-up effect once the position is settled: the device position,
    or the fallback when [getDeviceLocation()] throws. *)
Definition located (device : option Coords) (now : Z) (w : World) : World :=
  let loc := match device with Some l => l | None => manila end in
  appLoadNearby loc now (mkWorld (setMyLocation loc (app w)) (store w)).

(** What happens to the application. *)
Inductive AppEvent : Type :=
| Located (device : option Coords) (now : Z)
| Refresh (now : Z)
| Sweep (now : Z)
| PressNew
| PressBackFromCreate
| PressJoin (i : nat)
| PressCreate (name : list N) (anonAllowed : bool) (icebreaker : list N)
    (id : list N) (now now' : Z)
| CreateResolved (name : list N) (anonAllowed : bool) (icebreaker : list N)
    (device : option Coords) (id : list N) (now : Z)
| PressBackFromChat
| TypeHandle (h : list N)
| PressSend (anon : bool) (text : list N) (id : list N) (now : Z).

(** [ChatView] is on screen: [view === "chat" && selectedGroup]. *)
Definition chatGroup (a : SparkApp.t) : option Group.t :=
  match SparkApp.view a with
  | ViewChat => SparkApp.selectedGroup a
  | _ => None
  end.

(** One event.
    - [Refresh] is the 2-second interval, [if (myLocation)
      loadNearby(myLocation)]; [Sweep] the 30-second timer of the backend.
    - A button acts only while its view is on screen; [PressJoin i] is
      [onJoin(item)] on the [i]-th card of the list.
    - [create] and the [onCreated] it calls read the [myLocation] of the
      render in which "Create Spark" was pressed.  When that position is
      known, [create] runs to its end at once: this is [PressCreate].  When
      it is not, [create] waits for the device position and the press itself
      changes nothing; [CreateResolved] is the rest of [create] once the
      wait is over, [backend.createGroup(group); onCreated(group)], with
      [myLocation] still unknown to both whatever the state says by then.
      It can come after the screen has changed, so it is not tied to a
      view. *)
Definition appStep (w : World) (e : AppEvent) : World :=
  match e with
  | Located device now => located device now w
  | Refresh now =>
      match SparkApp.myLocation (app w) with
      | Some loc => appLoadNearby loc now w
      | None => w
      end
  | Sweep now => mkWorld (app w) (removeExpired now (store w))
  | PressNew =>
      match SparkApp.view (app w) with
      | ViewDiscover => openCreate w
      | _ => w
      end
  | PressBackFromCreate =>
      match SparkApp.view (app w) with
      | ViewCreate => openDiscover w
      | _ => w
      end
  | PressJoin i =>
      match SparkApp.view (app w), SparkApp.groups (app w) !! i with
      | ViewDiscover, Some item => openChat item w
      | _, _ => w
      end
  | PressCreate name anonAllowed icebreaker id now now' =>
      match SparkApp.view (app w), SparkApp.myLocation (app w) with
      | ViewCreate, Some loc =>
          let '(b', group) :=
            create name anonAllowed icebreaker (Some loc) None id now
              (store w) in
          onCreated (Some loc) group now' (mkWorld (app w) b')
      | _, _ => w
      end
  | CreateResolved name anonAllowed icebreaker device id now =>
      let '(b', group) :=
        create name anonAllowed icebreaker None device id now (store w) in
      onCreated None group now (mkWorld (app w) b')
  | PressBackFromChat =>
      match chatGroup (app w) with
      | Some _ => mkWorld (setView ViewDiscover (app w)) (store w)
      | None => w
      end
  | TypeHandle h =>
      match chatGroup (app w) with
      | Some _ => mkWorld (setNameHandle h (app w)) (store w)
      | None => w
      end
  | PressSend anon text id now =>
      match chatGroup (app w) with
      | Some group =>
          mkWorld (app w)
            (fst (send group (SparkApp.nameHandle (app w)) anon text id now
                    (store w)))
      | None => w
      end
  end.

Definition appRun (w : World) (es : list AppEvent) : World :=
  fold_left appStep es w.

(** The group that an event creates, if it creates one. *)
Definition createdBy (w : World) (e : AppEvent) : option Group.t :=
  match e with
  | PressCreate name anonAllowed icebreaker id now _ =>
      match SparkApp.view (app w), SparkApp.myLocation (app w) with
      | ViewCreate, Some loc =>
          Some (snd (create name anonAllowed icebreaker (Some loc) None id now
                       (store w)))
      | _, _ => None
      end
  | CreateResolved name anonAllowed icebreaker device id now =>
      Some (snd (create name anonAllowed icebreaker None device id now
                   (store w)))
  | _ => None
  end.

(** The groups created along a run, oldest first. *)
Fixpoint createdGroups (w : World) (es : list AppEvent) : list Group.t :=
  match es with
  | [] => []
  | e :: es' =>
      match createdBy w e with
      | Some g => g :: createdGroups (appStep w e) es'
      | None => createdGroups (appStep w e) es'
      end
  end.

(** What ties the screens and the backend to the groups [cs] created so
    far: the selected group, the groups of the list on screen and of the
    directory are among them, every message list is filed under the id of one
    of them, and an anonymous message under the id of one that allows
    anonymous posts. *)
Definition appInv (w : World) (cs : list Group.t) : Prop :=
  (∀ g, SparkApp.selectedGroup (app w) = Some g → In g cs) ∧
  (∀ g, In g (SparkApp.groups (app w)) → In g cs) ∧
  (∀ g, In g (groups (store w)) → In g cs) ∧
  (∀ k l, messages (store w) !! k = Some l → ∃ g, In g cs ∧ Group.id g = k) ∧
  (∀ k l m, messages (store w) !! k = Some l → In m l →
            Message.anonymous m = true →
            ∃ g, In g cs ∧ Group.id g = k ∧ Group.anonymousAllowed g = true).

(** A run of the screens: two groups created from the fallback position, the
    first one named-only; the user goes back to the list, joins the first
    card and posts under a handle. *)
Definition session : list AppEvent :=
  [Located None 500;
   PressNew;
   PressCreate (JsString.lit "Study grind room") false icebreaker0
     (JsString.lit "k3j9x2a") 1000 1001;
   PressBackFromChat;
   PressNew;
   PressCreate (JsString.lit "Concert afterparty") true icebreaker0
     (JsString.lit "q8w1e5r") 61000 61001;
   PressBackFromChat;
   PressJoin 0;
   TypeHandle (JsString.lit "ana");
   PressSend false (JsString.lit " hello ") (JsString.lit "m4n5b6v") 62000].

(** * Properties *)

(** ** Strings *)

Module JsStringFacts.
Import JsString.

Lemma trimStart_blank s : blank s = true → trimStart s = [].
Proof.
  induction s as [|c s IH]; simpl; [done|].
  intros [Hc Hs]%andb_prop. rewrite Hc. auto.
Qed.

Lemma trimStart_nil_blank s : trimStart s = [] → blank s = true.
Proof.
  induction s as [|c s IH]; simpl; [done|].
  destruct (isWhiteSpace c); [auto | discriminate].
Qed.

Lemma trimStart_head s c r : trimStart s = c :: r → isWhiteSpace c = false.
Proof.
  induction s as [|d s IH]; simpl; [discriminate|].
  destruct (isWhiteSpace d) eqn:Hd; [auto|].
  intros [= -> _]. exact Hd.
Qed.

Lemma blank_trimStart s : blank (trimStart s) = blank s.
Proof.
  induction s as [|c s IH]; simpl; [done|].
  destruct (isWhiteSpace c) eqn:Hc; simpl; [exact IH | by rewrite Hc].
Qed.

Lemma blank_rev s : blank (rev s) = blank s.
Proof.
  unfold blank. apply eq_true_iff_eq.
  rewrite !forallb_forall. split; intros H x Hx; apply H.
  - by apply in_rev in Hx.
  - by apply in_rev.
Qed.

(** [!text.trim()] holds exactly on blank strings. *)
Lemma trim_nil_iff s : trim s = [] ↔ blank s = true.
Proof.
  unfold trim, trimEnd. split.
  - intros H.
    assert (Hu : trimStart (rev (trimStart s)) = []).
    { destruct (trimStart (rev (trimStart s))) as [|c u]; [done|].
      simpl in H. by destruct (rev u). }
    apply trimStart_nil_blank in Hu.
    by rewrite blank_rev, blank_trimStart in Hu.
  - intros H. by rewrite (trimStart_blank s H).
Qed.

(** What [trim] leaves, when it leaves something, is not blank. *)
Lemma trim_not_blank s : trim s ≠ [] → blank (trim s) = false.
Proof.
  unfold trim, trimEnd. intros Hne.
  rewrite blank_rev.
  destruct (trimStart (rev (trimStart s))) as [|c u] eqn:Hu; [done|].
  simpl. by rewrite (trimStart_head _ _ _ Hu).
Qed.

Lemma truthy_false s : truthy s = false ↔ s = [].
Proof. by destruct s. Qed.

End JsStringFacts.

(** ** Sorting *)

Section SortFacts.
Context {A : Type} (cmp : A → A → Z).

Lemma insert_Permutation x l : Permutation (x :: l) (insert cmp x l).
Proof.
  induction l as [|y l IH]; simpl; [done|].
  destruct (cmp x y <=? 0); [done|].
  rewrite perm_swap. by constructor.
Qed.

Lemma sort_Permutation l : Permutation l (sort cmp l).
Proof.
  induction l as [|x l IH]; simpl; [done|].
  rewrite <- insert_Permutation. by constructor.
Qed.

Lemma sort_In x l : In x (sort cmp l) ↔ In x l.
Proof.
  split; apply Permutation_in; [symmetry|]; apply sort_Permutation.
Qed.

Hypothesis cmp_total : ∀ a b, 0 < cmp a b → cmp b a <= 0.
Hypothesis cmp_trans : ∀ a b c, cmp a b <= 0 → cmp b c <= 0 → cmp a c <= 0.

Lemma insert_sorted x l :
  StronglySorted (notAfter cmp) l → StronglySorted (notAfter cmp) (insert cmp x l).
Proof.
  induction 1 as [|y l Hl IH Hy]; simpl.
  - repeat constructor.
  - destruct (Z.leb_spec (cmp x y) 0) as [Hxy|Hxy].
    + constructor; [by constructor|].
      constructor; [exact Hxy|].
      eapply Forall_impl; [exact Hy|]. intros z Hz. by eapply cmp_trans.
    + constructor; [exact IH|].
      eapply Permutation_Forall; [apply insert_Permutation|].
      constructor; [by apply cmp_total | exact Hy].
Qed.

Lemma sort_sorted l : StronglySorted (notAfter cmp) (sort cmp l).
Proof.
  induction l as [|x l IH]; simpl; [constructor | by apply insert_sorted].
Qed.
End SortFacts.

(** ** The sweep *)

Section SweepFacts.
Implicit Types (b : Backend) (m : gmap (list N) (list Message.t))
  (k : list N) (live : list Group.t).

Lemma findGroup_None live k :
  findGroup live k = None ↔ ∀ g, In g live → Group.id g ≠ k.
Proof.
  unfold findGroup. split.
  - intros H g Hg Hk.
    eapply find_none in H; [|exact Hg]. simpl in H.
    by rewrite bool_decide_eq_false in H.
  - intros H. induction live as [|x live IH]; simpl; [done|].
    rewrite bool_decide_eq_false_2 by (apply H; by left).
    apply IH. intros g Hg. apply H. by right.
Qed.

Lemma findGroup_Some live k g :
  findGroup live k = Some g → In g live ∧ Group.id g = k.
Proof.
  unfold findGroup. intros H. apply find_some in H as [Hg Hk].
  split; [done|]. by apply bool_decide_eq_true in Hk.
Qed.

Lemma filter_filter_same {A} (f : A → bool) (l : list A) :
  List.filter f (List.filter f l) = List.filter f l.
Proof.
  induction l as [|x l IH]; simpl; [done|].
  destruct (f x) eqn:Hx; simpl; [by rewrite Hx, IH | exact IH].
Qed.

Lemma dropOrphan_lookup_ne live m k k' :
  k' ≠ k → dropOrphan live m k' !! k = m !! k.
Proof.
  intros Hne. unfold dropOrphan.
  destruct (findGroup live k'); [done | by apply lookup_delete_ne].
Qed.

Lemma dropOrphan_lookup_None live m k k' :
  m !! k = None → dropOrphan live m k' !! k = None.
Proof.
  intros Hm. unfold dropOrphan.
  destruct (findGroup live k'); [done|].
  by apply lookup_delete_None; right.
Qed.

(** A key with a live group survives the loop, whatever the order of the
    keys. *)
Lemma sweep_keeps live ks m k :
  findGroup live k ≠ None →
  fold_left (dropOrphan live) ks m !! k = m !! k.
Proof.
  intros Hk. revert m. induction ks as [|k' ks IH]; intros m; simpl; [done|].
  rewrite IH. destruct (decide (k' = k)) as [->|Hne].
  - unfold dropOrphan. by destruct (findGroup live k).
  - by apply dropOrphan_lookup_ne.
Qed.

Lemma sweep_None live ks m k :
  m !! k = None → fold_left (dropOrphan live) ks m !! k = None.
Proof.
  revert m. induction ks as [|k' ks IH]; intros m Hm; simpl; [done|].
  apply IH. by apply dropOrphan_lookup_None.
Qed.

(** A visited key without a live group is deleted. *)
Lemma sweep_drops live ks m k :
  findGroup live k = None → In k ks →
  fold_left (dropOrphan live) ks m !! k = None.
Proof.
  intros Hk. revert m.
  induction ks as [|k' ks IH]; intros m Hin; simpl; [done|].
  destruct (decide (k' = k)) as [->|Hne].
  - apply sweep_None. unfold dropOrphan.
    rewrite Hk. apply lookup_delete_eq.
  - apply IH. by destruct Hin.
Qed.

Lemma keys_In m k : In k (keys m) ↔ is_Some (m !! k).
Proof.
  unfold keys. rewrite <- list_elem_of_In, list_elem_of_fmap. split.
  - intros [[k' v] [-> Hkv]]. apply elem_of_map_to_list in Hkv. by exists v.
  - intros [v Hv]. exists (k, v). split; [done|].
    by apply elem_of_map_to_list.
Qed.

(** The message store after a sweep, key by key. *)
Lemma removeExpired_lookup now b k :
  messages (removeExpired now b) !! k =
    match findGroup (groups (removeExpired now b)) k with
    | Some _ => messages b !! k
    | None => None
    end.
Proof.
  simpl. destruct (findGroup _ k) eqn:Hk.
  - apply sweep_keeps. by rewrite Hk.
  - destruct (messages b !! k) eqn:Hm.
    + apply sweep_drops; [done|]. apply keys_In. by rewrite Hm.
    + by apply sweep_None.
Qed.

Lemma removeExpired_groups now b g :
  In g (groups (removeExpired now b)) ↔ In g (groups b) ∧ now < Group.expiresAt g.
Proof. simpl. rewrite filter_In. by rewrite Z.gtb_lt. Qed.

Lemma Backend_eq b1 b2 :
  groups b1 = groups b2 → messages b1 = messages b2 → b1 = b2.
Proof. destruct b1, b2; simpl; by intros -> ->. Qed.

End SweepFacts.

(** ** Backend operations, key by key *)

Section BackendFacts.
Implicit Types (b : Backend) (k gid : list N) (g : Group.t) (msg : Message.t).

Lemma getMessages_lookup gid b l :
  messages b !! gid = Some l → getMessages gid b = l.
Proof. unfold getMessages. by intros ->. Qed.

Lemma getMessages_None gid b :
  messages b !! gid = None → getMessages gid b = [].
Proof. unfold getMessages. by intros ->. Qed.

Lemma getMessages_In gid b msg :
  In msg (getMessages gid b) →
  ∃ l, messages b !! gid = Some l ∧ In msg l.
Proof.
  unfold getMessages. destruct (messages b !! gid) as [l|]; simpl; [|done].
  intros H. by exists l.
Qed.

Lemma postMessage_groups gid msg b :
  groups (fst (postMessage gid msg b)) = groups b.
Proof. done. Qed.

(** [postMessage] appends to the collection of [gid], creating it when it
    is missing, and touches no other collection. *)
Lemma postMessage_lookup gid msg b k :
  messages (fst (postMessage gid msg b)) !! k =
    if decide (gid = k)
    then Some (default [] (messages b !! gid) ++ [msg])
    else messages b !! k.
Proof.
  unfold postMessage; simpl.
  destruct (decide (gid = k)) as [<-|Hne].
  - rewrite lookup_alter_eq.
    destruct (messages b !! gid) as [l|] eqn:Hl; simpl.
    + by rewrite Hl.
    + by rewrite lookup_insert_eq.
  - rewrite lookup_alter_ne by done.
    destruct (messages b !! gid); [done|]. by rewrite lookup_insert_ne.
Qed.

Lemma createGroup_lookup g b k :
  messages (fst (createGroup g b)) !! k =
    if decide (Group.id g = k) then Some [] else messages b !! k.
Proof.
  simpl. destruct (decide (Group.id g = k)) as [<-|Hne].
  - by rewrite lookup_insert_eq.
  - by rewrite lookup_insert_ne.
Qed.

(** [send] either leaves the backend alone or posts one message whose text
    is the trimmed, non-empty input. *)
Lemma send_cases group nameHandle anon text id now b :
  fst (send group nameHandle anon text id now b) = b ∨
  ∃ msg, JsString.trim text ≠ [] ∧ Message.text msg = JsString.trim text ∧
         fst (send group nameHandle anon text id now b) =
           fst (postMessage (Group.id group) msg b).
Proof.
  unfold send.
  destruct (JsString.trim text) as [|c r] eqn:Ht; simpl; [by left|].
  destruct (anon && negb (Group.anonymousAllowed group)); [by left|].
  right. eexists. split; [done|]. split; [|reflexivity]. done.
Qed.

Lemma send_groups group nameHandle anon text id now b :
  groups (fst (send group nameHandle anon text id now b)) = groups b.
Proof.
  destruct (send_cases group nameHandle anon text id now b)
    as [->|(msg & _ & _ & ->)]; done.
Qed.

Lemma step_groups_In b e g :
  In g (groups (step b e)) →
  In g (groups b) ∨
  (createdId e = Some (Group.id g) ∧
   Group.expiresAt g = Group.createdAt g + DAY_MS).
Proof.
  destruct e as [name aa ib my dev id now|group nh anon text id now|loc now|now];
    simpl.
  - rewrite in_app_iff. intros [H|[<-|[]]]; [by left|]. by right.
  - rewrite send_groups. by left.
  - rewrite filter_In. intros [H _]. by left.
  - rewrite filter_In. intros [H _]. by left.
Qed.

(** Induction over the events of a run. *)
Lemma run_ind (P : Backend → Prop) b es :
  P b → (∀ b' e, In e es → P b' → P (step b' e)) → P (run b es).
Proof.
  unfold run. revert b. induction es as [|e es IH]; intros b Hb Hstep; simpl.
  - done.
  - apply IH.
    + apply Hstep; [by left | done].
    + intros b' e' He'. apply Hstep. by right.
Qed.

(** No event but a [create] under that id brings a group id into the
    directory. *)
Lemma run_no_id b es k :
  (∀ g, In g (groups b) → Group.id g ≠ k) →
  Forall (λ e, createdId e ≠ Some k) es →
  ∀ g, In g (groups (run b es)) → Group.id g ≠ k.
Proof.
  intros Hb Hes. apply run_ind; [done|].
  intros b' e He Hb' g Hg.
  apply step_groups_In in Hg as [Hg|[Hc _]]; [by apply Hb'|].
  rewrite Forall_forall in Hes. intros <-.
  apply (Hes e); [by apply list_elem_of_In | done].
Qed.

(** Every group of the directory was given its 24 hours by [create]. *)
Lemma run_lifetime es g :
  In g (groups (run backend0 es)) →
  Group.expiresAt g - Group.createdAt g = 86400000.
Proof.
  revert g. apply run_ind; [done|].
  intros b e _ Hb g Hg.
  apply step_groups_In in Hg as [Hg|[_ Hg]]; [by apply Hb|].
  rewrite Hg. unfold DAY_MS. lia.
Qed.

(** Every group of the directory owns a message collection. *)
Lemma run_has_collection es g :
  In g (groups (run backend0 es)) →
  is_Some (messages (run backend0 es) !! Group.id g).
Proof.
  revert g. apply run_ind; [done|].
  intros b e _ Hb g Hg.
  destruct e as [name aa ib my dev id now|group nh anon text id now|loc now|now].
  - unfold step, create in *. rewrite createGroup_lookup.
    case_decide; [done|].
    simpl in Hg. apply in_app_iff in Hg as [Hg|[<-|[]]]; [by apply Hb|done].
  - unfold step in *. rewrite send_groups in Hg. specialize (Hb g Hg).
    destruct (send_cases group nh anon text id now b)
      as [->|(msg & _ & _ & ->)]; [done|].
    rewrite postMessage_lookup. by case_decide.
  - unfold step, loadNearby in *. cbn [fst] in *.
    rewrite removeExpired_lookup.
    destruct (findGroup _ (Group.id g)) eqn:Hf.
    + apply Hb. by apply removeExpired_groups in Hg as [Hg _].
    + exfalso. by eapply findGroup_None in Hf.
  - unfold step in *. rewrite removeExpired_lookup.
    destruct (findGroup _ (Group.id g)) eqn:Hf.
    + apply Hb. by apply removeExpired_groups in Hg as [Hg _].
    + exfalso. by eapply findGroup_None in Hf.
Qed.

(** Every stored message has a text that is not blank. *)
Lemma run_texts es k msg :
  In msg (getMessages k (run backend0 es)) →
  JsString.blank (Message.text msg) = false.
Proof.
  intros H. apply getMessages_In in H as (l & Hl & Hin).
  revert k l Hl Hin. apply run_ind; [done|].
  intros b e _ Hb k l Hl Hin.
  destruct e as [name aa ib my dev id now|group nh anon text id now|loc now|now].
  - unfold step, create in Hl. rewrite createGroup_lookup in Hl.
    case_decide; [by simplify_eq | by eapply Hb].
  - unfold step in Hl.
    destruct (send_cases group nh anon text id now b)
      as [Heq|(m & Hne & Ht & Heq)]; rewrite Heq in Hl; [by eapply Hb|].
    rewrite postMessage_lookup in Hl. case_decide; [|by eapply Hb].
    simplify_eq. apply in_app_iff in Hin as [Hin|[<-|[]]].
    + destruct (messages b !! Group.id group) eqn:Hm; [by eapply Hb | done].
    + rewrite Ht. by apply JsStringFacts.trim_not_blank.
  - unfold step, loadNearby in Hl. cbn [fst] in Hl.
    rewrite removeExpired_lookup in Hl.
    destruct (findGroup _ k); [by eapply Hb | done].
  - unfold step in Hl. rewrite removeExpired_lookup in Hl.
    destruct (findGroup _ k); [by eapply Hb | done].
Qed.

End BackendFacts.

(** ** Listing nearby groups *)

Lemma byExpiry_sorted (l : list Group.t) :
  StronglySorted (λ a b, Group.expiresAt a <= Group.expiresAt b)
    (sort byExpiry l).
Proof.
  assert (H : StronglySorted (notAfter byExpiry) (sort byExpiry l)).
  { apply sort_sorted; unfold byExpiry; intros; lia. }
  induction H as [|x s Hs IH Hx]; constructor; [done|].
  eapply Forall_impl; [exact Hx|].
  unfold notAfter, byExpiry. intros; lia.
Qed.

(** The groups that [loadNearby] returns are groups that the sweep kept and
    the distance filter accepted. *)
Lemma loadNearby_In (loc : Coords) (now : Z) (b : Backend) (g : Group.t) :
  In g (snd (loadNearby loc now b)) ↔
  In g (groups (removeExpired now b)) ∧
  isNearby (latitude loc) (longitude loc) 50 g = true.
Proof.
  unfold loadNearby, listGroupsNearby. cbn [fst snd from_option Datatypes.id].
  by rewrite sort_In, filter_In.
Qed.

(** C1. Whatever the backend holds when [loadNearby] is called at time [now],
    no group of the list it returns has [expiresAt <= now]: the list is the
    sorted distance filter of the directory left by [removeExpired], so each
    of its groups is a group of the directory, within the radius, that is
    still live. *)
Theorem loadNearby_never_expired (loc : Coords) (now : Z) (b : Backend)
    (g : Group.t) :
  In g (snd (loadNearby loc now b)) →
  ¬ (Group.expiresAt g <= now) ∧
  In g (groups b) ∧
  isNearby (latitude loc) (longitude loc) 50 g = true ∧
  fst (loadNearby loc now b) = removeExpired now b ∧
  snd (loadNearby loc now b) =
    sort byExpiry
      (List.filter (isNearby (latitude loc) (longitude loc) 50)
         (List.filter (λ x, Group.expiresAt x >? now) (groups b))).
Proof.
  intros Hg. apply loadNearby_In in Hg as [Hg Hnear].
  apply removeExpired_groups in Hg as [Hg Hlive].
  repeat split; try done. lia.
Qed.

(** C7. The list returned by [loadNearby] is sorted by non-decreasing
    [expiresAt]. *)
Theorem loadNearby_sorted (loc : Coords) (now : Z) (b : Backend) :
  StronglySorted (λ x y, Group.expiresAt x <= Group.expiresAt y)
    (snd (loadNearby loc now b)).
Proof. unfold loadNearby. cbn [snd]. apply byExpiry_sorted. Qed.

(** ** Creation *)

(** C5. The group that [create] builds and registers at time [now] has
    [createdAt = now] and [expiresAt = createdAt + 24h], so
    [expiresAt - createdAt] is exactly 86,400,000 milliseconds; it is the group
    appended to the directory. *)
Theorem create_lifetime (name : list N) (anonAllowed : bool)
    (icebreaker : list N) (myLocation device : option Coords) (id : list N)
    (now : Z) (b : Backend) :
  let r := create name anonAllowed icebreaker myLocation device id now b in
  Group.expiresAt (snd r) - Group.createdAt (snd r) = 86400000 ∧
  Group.expiresAt (snd r) = Group.createdAt (snd r) + 24 * 60 * 60 * 1000 ∧
  Group.createdAt (snd r) = now ∧
  groups (fst r) = groups b ++ [snd r].
Proof.
  unfold create, createGroup, DAY_MS. cbn. repeat split; lia.
Qed.

(** ** Expiry *)

(** C8. At a fixed time, sweeping a second time changes nothing: the group
    list and the message store are those left by the first sweep. *)
Theorem removeExpired_idempotent (now : Z) (b : Backend) :
  removeExpired now (removeExpired now b) = removeExpired now b.
Proof.
  assert (Hg : groups (removeExpired now (removeExpired now b)) =
               groups (removeExpired now b)) by apply filter_filter_same.
  apply Backend_eq; [exact Hg|].
  apply map_eq. intros k.
  rewrite (removeExpired_lookup now (removeExpired now b)), Hg.
  rewrite (removeExpired_lookup now b).
  by destruct (findGroup _ k).
Qed.

(** C10. Right after a sweep, every id that still owns a message collection
    is the id of a group of the live list, whether or not the collection was
    registered by [createGroup]; the collection itself is the one held before
    the sweep. *)
Theorem removeExpired_no_orphans (now : Z) (b : Backend) (k : list N)
    (l : list Message.t) :
  messages (removeExpired now b) !! k = Some l →
  (∃ g, In g (groups (removeExpired now b)) ∧ Group.id g = k ∧
        now < Group.expiresAt g) ∧
  messages b !! k = Some l.
Proof.
  rewrite removeExpired_lookup.
  destruct (findGroup _ k) as [g|] eqn:Hf; [|done].
  intros Hl. split; [|done].
  apply findGroup_Some in Hf as [Hg Hk]. exists g.
  repeat split; try done. by apply removeExpired_groups in Hg as [_ Hg].
Qed.

Lemma NoDup_ids_unique (l : list Group.t) (g x : Group.t) :
  NoDup (map Group.id l) → In g l → In x l → Group.id x = Group.id g → x = g.
Proof.
  induction l as [|y l IH]; simpl; [done|].
  rewrite NoDup_cons. intros [Hy Hl] [->|Hg] [->|Hx] Hid; auto.
  - exfalso. apply Hy. rewrite <- Hid. apply list_elem_of_In. by apply in_map.
  - exfalso. apply Hy. rewrite Hid. apply list_elem_of_In. by apply in_map.
Qed.

(** C2. Take a directory whose groups have distinct ids and a group [g] of
    it whose [expiresAt] has elapsed at time [now].  After a sweep at [now],
    [getMessages] on the id of [g] returns the empty list, the message
    collection of [g] is gone, and no later [loadNearby], whatever the events
    in between (provided that none creates a group under the id of [g]
    again), returns a group with that id. *)
Theorem expired_group_gone (b : Backend) (g : Group.t) (now : Z)
    (es : list Event) (loc : Coords) (now' : Z) :
  NoDup (map Group.id (groups b)) →
  In g (groups b) →
  Group.expiresAt g <= now →
  Forall (λ e, createdId e ≠ Some (Group.id g)) es →
  getMessages (Group.id g) (removeExpired now b) = [] ∧
  messages (removeExpired now b) !! Group.id g = None ∧
  (∀ x, In x (groups (removeExpired now b)) → Group.id x ≠ Group.id g) ∧
  ∀ x, In x (snd (loadNearby loc now' (run (removeExpired now b) es))) →
       Group.id x ≠ Group.id g.
Proof.
  intros Hnd Hg Hexp Hes.
  assert (Hgone : ∀ x, In x (groups (removeExpired now b)) →
                       Group.id x ≠ Group.id g).
  { intros x Hx Hid. apply removeExpired_groups in Hx as [Hx Hlive].
    assert (x = g) by by eapply NoDup_ids_unique. subst x. lia. }
  assert (Hnone : messages (removeExpired now b) !! Group.id g = None).
  { rewrite removeExpired_lookup.
    destruct (findGroup _ (Group.id g)) as [x|] eqn:Hf; [|done].
    apply findGroup_Some in Hf as [Hx Hid]. by apply Hgone in Hx. }
  repeat split; try done.
  - by apply getMessages_None.
  - intros x Hx.
    apply loadNearby_In in Hx as [Hx _].
    apply removeExpired_groups in Hx as [Hx _].
    revert x Hx. by apply run_no_id.
Qed.

(** ** Posting *)

(** C3, as the code has it.  On a group that does not allow anonymous posts,
    an anonymous [send] never changes the backend; it raises the alert
    exactly when the trimmed text is not empty, and is silently ignored when
    the text is blank. *)
Theorem send_anonymous_rejected (group : Group.t) (nameHandle text id : list N)
    (now : Z) (b : Backend) :
  Group.anonymousAllowed group = false →
  fst (send group nameHandle true text id now b) = b ∧
  getMessages (Group.id group) (fst (send group nameHandle true text id now b))
    = getMessages (Group.id group) b ∧
  snd (send group nameHandle true text id now b) =
    if JsString.blank text then SendIgnored else SendAlert ANON_ALERT.
Proof.
  intros Hna. unfold send. rewrite Hna.
  destruct (JsString.blank text) eqn:Hb.
  - apply JsStringFacts.trim_nil_iff in Hb. by rewrite Hb.
  - destruct (JsString.trim text) as [|c r] eqn:Ht; [|done].
    apply JsStringFacts.trim_nil_iff in Ht. congruence.
Qed.

(** C3, as stated, fails on a blank text: the anonymous post on a group
    that forbids it is dropped by the emptiness test, before the policy
    test, and no alert is raised. *)
Lemma send_anonymous_blank_silent :
  Group.anonymousAllowed studyRoom = false ∧
  snd (send studyRoom [] true spaces (JsString.lit "m4n5b6v") 2000
         (run backend0 [createStudyRoom])) = SendIgnored ∧
  ¬ ∃ a, snd (send studyRoom [] true spaces (JsString.lit "m4n5b6v") 2000
                (run backend0 [createStudyRoom])) = SendAlert a.
Proof.
  split; [reflexivity|]. split; [reflexivity|]. intros [a Ha]. discriminate Ha.
Qed.

(** C4. A [send] whose text is empty or made of white space only is a silent
    no-op: it returns without building a message, the backend is the same
    and so is the length of the message list of the group.  And in every
    backend that a run of the application reaches, no stored message has a
    blank text. *)
Theorem send_blank_noop (group : Group.t) (nameHandle : list N) (anon : bool)
    (text id : list N) (now : Z) (b : Backend) (es : list Event) :
  JsString.blank text = true →
  send group nameHandle anon text id now b = (b, SendIgnored) ∧
  length (getMessages (Group.id group)
            (fst (send group nameHandle anon text id now b))) =
    length (getMessages (Group.id group) b) ∧
  ∀ k msg, In msg (getMessages k (run backend0 es)) →
           JsString.blank (Message.text msg) = false ∧ Message.text msg ≠ [].
Proof.
  intros Hb. apply JsStringFacts.trim_nil_iff in Hb.
  assert (Hs : send group nameHandle anon text id now b = (b, SendIgnored))
    by (unfold send; by rewrite Hb).
  rewrite Hs. repeat split; try done.
  - by eapply run_texts.
  - intros Hnil. apply run_texts in H. by rewrite Hnil in H.
Qed.

(** C9. In a backend reached by a run, let [gid] be an id without a message
    collection.  [postMessage] then returns the message, and [getMessages]
    on [gid] returns the list holding just that message; the message stays in
    that list through any later events that neither sweep nor create a group
    under [gid], and the next sweep, whenever it runs, deletes the
    collection. *)
Theorem postMessage_unknown_id (es : list Event) (gid : list N)
    (msg : Message.t) (es' : list Event) (now : Z) :
  messages (run backend0 es) !! gid = None →
  Forall (λ e, sweeps e = false ∧ createdId e ≠ Some gid) es' →
  snd (postMessage gid msg (run backend0 es)) = msg ∧
  getMessages gid (fst (postMessage gid msg (run backend0 es))) = [msg] ∧
  In msg (getMessages gid
            (run (fst (postMessage gid msg (run backend0 es))) es')) ∧
  getMessages gid
    (removeExpired now
       (run (fst (postMessage gid msg (run backend0 es))) es')) = [].
Proof.
  intros Hnone Hes'. set (b := run backend0 es) in *.
  set (b' := fst (postMessage gid msg b)).
  assert (Hb' : messages b' !! gid = Some [msg]).
  { unfold b'. rewrite postMessage_lookup, decide_True by done.
    by rewrite Hnone. }
  split; [done|]. split; [by apply getMessages_lookup|]. split.
  - apply run_ind.
    + by rewrite (getMessages_lookup _ _ _ Hb'); left.
    + intros b1 e He Hin.
      rewrite Forall_forall in Hes'.
      destruct (Hes' e) as [Hsw Hid]; [by apply list_elem_of_In|].
      apply getMessages_In in Hin as (l & Hl & Hin).
      destruct e as [name aa ib my dev id tm|group nh anon text id tm|loc tm|tm];
        try discriminate Hsw.
      * simpl in Hid. assert (id ≠ gid) by congruence.
        erewrite getMessages_lookup; [exact Hin|].
        unfold step, create. by rewrite createGroup_lookup, decide_False.
      * unfold step.
        destruct (send_cases group nh anon text id tm b1)
          as [->|(m & _ & _ & ->)].
        -- by erewrite getMessages_lookup.
        -- destruct (decide (Group.id group = gid)) as [Heq|Hne].
           ++ erewrite getMessages_lookup;
                [|rewrite postMessage_lookup, decide_True by done; reflexivity].
              rewrite Heq, Hl. simpl. apply in_app_iff. by left.
           ++ erewrite getMessages_lookup; [exact Hin|].
              by rewrite postMessage_lookup, decide_False.
  - apply getMessages_None. rewrite removeExpired_lookup.
    destruct (findGroup _ gid) as [x|] eqn:Hf; [|done].
    apply findGroup_Some in Hf as [Hx Hid].
    apply removeExpired_groups in Hx as [Hx _].
    exfalso. revert x Hx Hid. apply run_no_id.
    + intros g Hg Hid. unfold b' in Hg. rewrite postMessage_groups in Hg.
      apply run_has_collection in Hg. fold b in Hg.
      rewrite Hid, Hnone in Hg. by destruct Hg.
    + eapply Forall_impl; [exact Hes'|]. by intros e [_ He].
Qed.

(** ** The distance filter *)

Section FloatFacts.

(** A finite number minus itself is [+0]. *)
Lemma sub_self (x : float) : isFinite x = true → (x - x)%float = 0%float.
Proof.
  intros H. apply Prim2SF_inj. rewrite sub_spec.
  unfold isFinite in H.
  destruct (Prim2SF x) as [s|s| |s m e]; try discriminate.
  - by destruct s.
  - unfold SF64sub, SFsub. rewrite Z.min_id.
    unfold shl_align. rewrite Z.sub_diag. cbn [fst].
    reflexivity.
Qed.

Lemma SFcompare_Lt_Gt (a b : spec_float) :
  SFcompare a b = Some Lt → SFcompare b a = Some Gt.
Proof.
  destruct a as [s|s| |s m e], b as [s'|s'| |s' m' e']; simpl;
    try discriminate;
    try (destruct s; try destruct s'; simpl; congruence);
    try (destruct s'; simpl; congruence).
  pose proof (Pos.compare_cont_antisym m m' Eq) as HA. simpl in HA.
  rewrite (Z.compare_antisym e e'), <- HA.
  destruct s, s'; try congruence;
    destruct (e ?= e')%Z; simpl; try congruence;
    destruct (Pos.compare_cont Eq m m'); simpl; congruence.
Qed.

(** [r < d] rules out [d <= r], NaN included. *)
Lemma ltb_not_leb (r d : float) :
  (r <? d)%float = true → (d <=? r)%float = false.
Proof.
  rewrite ltb_spec, leb_spec. unfold SFltb, SFleb.
  destruct (SFcompare (Prim2SF r) (Prim2SF d)) as [[]|] eqn:H;
    try discriminate.
  intros _. by rewrite (SFcompare_Lt_Gt _ _ H).
Qed.

(** At the coordinates of the origin the computed distance is [+0]. *)
Lemma distanceKm_same (lat lng : float) (g : Group.t) :
  Group.lat g = lat → Group.lng g = lng →
  isFinite lat = true → isFinite lng = true →
  distanceKm lat lng g = 0%float.
Proof.
  intros <- <- Hlat Hlng. unfold distanceKm, degrees.
  rewrite (sub_self _ Hlat), (sub_self _ Hlng). reflexivity.
Qed.

End FloatFacts.

(** ** The roundings of the distance filter

    Each binary64 operation of [distanceKm] returns at least its exact
    result divided by [1 + 2^-52], less [2^-1074] where the result can be
    subnormal.  The lemmas follow the definitions of [SpecFloat]. *)

Section Rounding.

(** Powers of two. *)
Lemma p2_pos e : (0 < p2 e)%R.
Proof. apply powerRZ_lt. lra. Qed.

Lemma p2_add a b : p2 (a + b) = (p2 a * p2 b)%R.
Proof. apply powerRZ_add. lra. Qed.

Lemma p2_IZR n : 0 <= n -> IZR (2 ^ n) = p2 n.
Proof.
  intros Hn. unfold p2. rewrite <- (Z2Nat.id n Hn) at 1.
  rewrite <- pow_IZR. rewrite <- (Z2Nat.id n Hn) at 2.
  now rewrite <- pow_powerRZ.
Qed.

Lemma p2_ge_1 n : 0 <= n -> (1 <= p2 n)%R.
Proof.
  intros Hn. rewrite <- p2_IZR by assumption. apply IZR_le.
  assert (0 < 2 ^ n) by (apply Z.pow_pos_nonneg; lia). lia.
Qed.

Lemma p2_le a b : a <= b -> (p2 a <= p2 b)%R.
Proof.
  intros H. replace b with (a + (b - a)) by lia. rewrite p2_add.
  pose proof (p2_pos a). pose proof (p2_ge_1 (b - a) ltac:(lia)). nra.
Qed.

Lemma p2_0 : p2 0 = 1%R.
Proof. reflexivity. Qed.

(** The number of digits of a mantissa. *)
Lemma digits2_pos_bounds m :
  2 ^ (Z.pos (digits2_pos m) - 1) <= Z.pos m < 2 ^ Z.pos (digits2_pos m).
Proof.
  induction m as [m IH|m IH|]; simpl digits2_pos.
  - rewrite Pos2Z.inj_succ.
    replace (Z.succ (Z.pos (digits2_pos m)) - 1) with (Z.succ (Z.pos (digits2_pos m) - 1)) by lia.
    rewrite !Z.pow_succ_r by lia. lia.
  - rewrite Pos2Z.inj_succ.
    replace (Z.succ (Z.pos (digits2_pos m)) - 1) with (Z.succ (Z.pos (digits2_pos m) - 1)) by lia.
    rewrite !Z.pow_succ_r by lia. lia.
  - simpl. lia.
Qed.

Lemma Zdigits2_bounds m : 0 < m ->
  2 ^ (Zdigits2 m - 1) <= m < 2 ^ Zdigits2 m.
Proof.
  destruct m as [|p|p]; try lia. intros _. apply digits2_pos_bounds.
Qed.

Lemma Zdigits2_le m k : 0 <= k -> 0 <= m < 2 ^ k -> Zdigits2 m <= k.
Proof.
  intros Hk [Hm Hlt]. destruct (Z.eq_dec m 0) as [->|Hne]; [simpl; lia|].
  destruct (Zdigits2_bounds m ltac:(lia)) as [Hlo _].
  destruct (Z_le_gt_dec (Zdigits2 m) k) as [|Hgt]; [assumption|].
  exfalso. assert (2 ^ k <= 2 ^ (Zdigits2 m - 1)) by (apply Z.pow_le_mono_r; lia).
  lia.
Qed.

(** Shifts to the right. *)
Lemma shr_1_m mrs : 0 <= shr_m mrs -> shr_m (shr_1 mrs) = shr_m mrs / 2.
Proof.
  destruct mrs as [m r s]. cbn [shr_m]. intros Hm.
  destruct m as [|[p|p|]|p]; cbn [shr_1 shr_m]; try lia.
  - reflexivity.
  - apply Z.div_unique with 1; lia.
  - apply Z.div_unique with 0; lia.
  - reflexivity.
Qed.

Lemma iter_pos_shr_1 p : forall mrs, 0 <= shr_m mrs ->
  shr_m (SpecFloat.iter_pos shr_1 p mrs) = shr_m mrs / 2 ^ Z.pos p.
Proof.
  assert (Hnn : forall mrs, 0 <= shr_m mrs -> 0 <= shr_m (shr_1 mrs)).
  { intros mrs H. rewrite shr_1_m by assumption. apply Z.div_pos; lia. }
  induction p as [p IH|p IH|]; intros mrs Hm; cbn [SpecFloat.iter_pos].
  - rewrite IH, IH, shr_1_m; auto.
    + rewrite !Z.div_div by (try apply Z.pow_pos_nonneg; lia).
      f_equal.
      replace (Z.pos p~1) with (1 + Z.pos p + Z.pos p) by lia.
      rewrite !Z.pow_add_r by lia. lia.
    + rewrite IH by auto. apply Z.div_pos; [auto | apply Z.pow_pos_nonneg; lia].
  - rewrite IH, IH; auto.
    + rewrite !Z.div_div by (try apply Z.pow_pos_nonneg; lia).
      f_equal.
      replace (Z.pos p~0) with (Z.pos p + Z.pos p) by lia.
      rewrite !Z.pow_add_r by lia. lia.
    + rewrite IH by auto. apply Z.div_pos; [auto | apply Z.pow_pos_nonneg; lia].
  - rewrite shr_1_m by assumption. reflexivity.
Qed.

Lemma shr_spec mrs e n : 0 <= shr_m mrs ->
  shr_m (fst (shr mrs e n)) = shr_m mrs / 2 ^ Z.max 0 n /\
  snd (shr mrs e n) = e + Z.max 0 n.
Proof.
  intros Hm. destruct n as [|p|p]; cbn [shr fst snd].
  - change (Z.max 0 0) with 0. rewrite Z.pow_0_r, Z.div_1_r. lia.
  - change (Z.max 0 (Z.pos p)) with (Z.pos p).
    rewrite iter_pos_shr_1 by assumption. lia.
  - change (Z.max 0 (Z.neg p)) with 0. rewrite Z.pow_0_r, Z.div_1_r. lia.
Qed.

Lemma shr_record_of_loc_m m l : shr_m (shr_record_of_loc m l) = m.
Proof. destruct l as [|[]]; reflexivity. Qed.

Lemma round_nearest_even_bounds m l :
  m <= round_nearest_even m l <= m + 1.
Proof.
  unfold round_nearest_even. destruct l as [|[]]; try lia.
  destruct (Z.even m); lia.
Qed.

Lemma fexp_eq e : fexp prec emax e = Z.max (e - 53) (-1074).
Proof. reflexivity. Qed.

Lemma fexp_ge e : -1074 <= fexp prec emax e /\ e - 53 <= fexp prec emax e.
Proof. rewrite fexp_eq. lia. Qed.

(** The mantissa left by the first shift of [binary_round_aux]. *)
Lemma trunc_lt m ex E :
  Z.pos (digits2_pos m) + ex - 53 <= E -> ex <= E ->
  0 <= Z.pos m / 2 ^ (E - ex) < 2 ^ 53.
Proof.
  intros HE Hex.
  pose proof (digits2_pos_bounds m) as [_ Hm].
  set (d := Z.pos (digits2_pos m)) in *.
  assert (Hp : 0 < 2 ^ (E - ex)) by (apply Z.pow_pos_nonneg; lia).
  split; [apply Z.div_pos; lia|].
  apply Z.div_lt_upper_bound; [assumption|].
  destruct (Z_le_gt_dec d 53) as [Hd|Hd].
  - assert (2 ^ d <= 2 ^ 53) by (apply Z.pow_le_mono_r; lia). nia.
  - assert (2 ^ d <= 2 ^ (E - ex) * 2 ^ 53).
    { rewrite <- Z.pow_add_r by lia. apply Z.pow_le_mono_r; lia. }
    lia.
Qed.

Lemma BRA_Z s m ex lx :
  let E := Z.max ex (fexp prec emax (Z.pos (digits2_pos m) + ex)) in
  let t := Z.pos m / 2 ^ (E - ex) in
  exists m3 k, 0 <= k /\ 0 <= m3 /\ t <= m3 * 2 ^ k /\
    binary_round_aux prec emax s (Z.pos m) ex lx =
      match m3 with
      | Z0 => S754_zero s
      | Z.pos p =>
          if E + k <=? emax - prec then S754_finite s p (E + k)
          else S754_infinity s
      | Z.neg _ => S754_nan
      end.
Proof.
  intros E t.
  pose proof (fexp_ge (Z.pos (digits2_pos m) + ex)) as [Hf1 Hf2].
  assert (Ht : 0 <= t < 2 ^ 53) by (apply trunc_lt; unfold E; lia).
  unfold binary_round_aux, shr_fexp. cbn [Zdigits2].
  set (n := fexp prec emax (Z.pos (digits2_pos m) + ex) - ex).
  assert (HEn : E - ex = Z.max 0 n) by (unfold E, n; lia).
  assert (HEmin : -1074 <= E) by (unfold E; lia).
  assert (Htdef : t = Z.pos m / 2 ^ (E - ex)) by reflexivity.
  clearbody t. clearbody E.
  destruct (shr_spec (shr_record_of_loc (Z.pos m) lx) ex n) as [H1 H2];
    [rewrite shr_record_of_loc_m; lia|].
  rewrite shr_record_of_loc_m in H1.
  destruct (shr (shr_record_of_loc (Z.pos m) lx) ex n) as [mrs' e'].
  cbn [fst snd] in H1, H2.
  rewrite <- HEn, <- Htdef in H1.
  assert (He' : e' = E) by lia. clear H2. subst e'.
  set (m2 := round_nearest_even (shr_m mrs') (loc_of_shr_record mrs')).
  assert (Hm2 : t <= m2 <= t + 1).
  { unfold m2. rewrite H1. apply round_nearest_even_bounds. }
  set (n2 := fexp prec emax (Zdigits2 m2 + E) - E).
  destruct (shr_spec (shr_record_of_loc m2 loc_Exact) E n2) as [H3 H4];
    [cbn; lia|].
  destruct (shr (shr_record_of_loc m2 loc_Exact) E n2) as [mrs'' e''].
  cbn [fst snd shr_record_of_loc shr_m] in H3, H4. subst e''.
  exists (shr_m mrs''), (Z.max 0 n2).
  assert (Hk : Z.max 0 n2 = 0 /\ shr_m mrs'' = m2 \/
               Z.max 0 n2 = 1 /\ shr_m mrs'' * 2 = m2).
  { destruct (Z.eq_dec m2 (2 ^ 53)) as [Heq|Hne].
    - right. rewrite H3. unfold n2. rewrite Heq, fexp_eq.
      change (Zdigits2 (2 ^ 53)) with 54.
      assert (E1 : Z.max (54 + E - 53) (-1074) - E = 1) by lia.
      rewrite E1. split; reflexivity.
    - left. assert (Hd : Zdigits2 m2 <= 53) by (apply Zdigits2_le; lia).
      assert (Hn2 : Z.max 0 n2 = 0).
      { unfold n2. rewrite fexp_eq. lia. }
      rewrite H3, Hn2. split; [reflexivity | apply Z.div_1_r]. }
  split; [lia|]. split; [|split].
  - destruct Hk as [[_ ->]|[_ Hk]]; lia.
  - destruct Hk as [[-> ->]|[-> Hk]]; [rewrite Z.pow_0_r | rewrite Z.pow_1_r]; lia.
  - reflexivity.
Qed.

(** What [binary_round_aux] returns is at least the truncation of its
    input to the exponent of the format. *)
Lemma BRA_R s m ex lx :
  let E := Z.max ex (fexp prec emax (Z.pos (digits2_pos m) + ex)) in
  let t := Z.pos m / 2 ^ (E - ex) in
  let res := binary_round_aux prec emax s (Z.pos m) ex lx in
  signIs s res /\
  (isFinSF res = true -> (IZR t * p2 E <= magR res)%R).
Proof.
  intros E t res.
  destruct (BRA_Z s m ex lx) as (m3 & k & Hk & Hm3 & Ht & Hres).
  fold E t res in Ht, Hres. rewrite Hres.
  destruct m3 as [|p|p]; [| |lia].
  - split; [reflexivity|]. intros _. cbn [magR].
    assert (t <= 0) by lia.
    pose proof (p2_pos E). apply IZR_le in H. nra.
  - destruct (E + k <=? emax - prec); [|split; [reflexivity | discriminate]].
    split; [reflexivity|]. intros _. cbn [magR].
    rewrite p2_add, <- (p2_IZR k) by lia.
    apply IZR_le in Ht. rewrite mult_IZR in Ht.
    pose proof (p2_pos E). nra.
Qed.

Lemma u52_pos : (0 < u52)%R. Proof. apply p2_pos. Qed.
Lemma eta_pos : (0 < eta)%R. Proof. apply p2_pos. Qed.

(** The input is below the truncation plus one unit in the last place. *)
Lemma trunc_upper m ex E :
  ex <= E ->
  (IZR (Z.pos m) * p2 ex < IZR (Z.pos m / 2 ^ (E - ex)) * p2 E + p2 E)%R /\
  (E = ex -> (IZR (Z.pos m) * p2 ex = IZR (Z.pos m / 2 ^ (E - ex)) * p2 E)%R).
Proof.
  intros HE. set (t := Z.pos m / 2 ^ (E - ex)).
  assert (Hp : 0 < 2 ^ (E - ex)) by (apply Z.pow_pos_nonneg; lia).
  split.
  - assert (Hm : Z.pos m < (t + 1) * 2 ^ (E - ex)).
    { unfold t. pose proof (Z.mod_pos_bound (Z.pos m) _ Hp).
      pose proof (Z.div_mod (Z.pos m) (2 ^ (E - ex)) ltac:(lia)). nia. }
    apply IZR_lt in Hm. rewrite mult_IZR, plus_IZR, p2_IZR in Hm by lia.
    assert (HpE : p2 E = (p2 (E - ex) * p2 ex)%R)
      by (rewrite <- p2_add; f_equal; lia).
    rewrite HpE. fold t. pose proof (p2_pos ex). nra.
  - intros ->. unfold t. rewrite Z.sub_diag, Z.pow_0_r, Z.div_1_r. reflexivity.
Qed.

(** One unit in the last place, against the truncated value. *)
Lemma ulp_bound m ex E :
  E = fexp prec emax (Z.pos (digits2_pos m) + ex) -> ex <= E ->
  (p2 E <= IZR (Z.pos m / 2 ^ (E - ex)) * p2 E * u52 + eta)%R /\
  (-1074 < E -> (p2 E <= IZR (Z.pos m / 2 ^ (E - ex)) * p2 E * u52)%R).
Proof.
  intros HE Hex. rewrite fexp_eq in HE.
  pose proof (digits2_pos_bounds m) as [Hm _].
  set (d := Z.pos (digits2_pos m)) in *.
  set (t := Z.pos m / 2 ^ (E - ex)).
  pose proof (p2_pos E) as HpE. pose proof eta_pos as Heta.
  assert (Hnorm : -1074 < E -> (p2 E <= IZR t * p2 E * u52)%R).
  { intros HEn. assert (HEd : E - ex = d - 53) by lia.
    assert (Ht : 2 ^ 52 <= t).
    { unfold t. apply Z.div_le_lower_bound; [apply Z.pow_pos_nonneg; lia|].
      rewrite HEd. rewrite <- Z.pow_add_r by lia.
      replace (d - 53 + 52) with (d - 1) by lia. assumption. }
    apply IZR_le in Ht. rewrite p2_IZR in Ht by lia.
    assert (H1 : (p2 52 * u52 = 1)%R).
    { unfold u52. rewrite <- p2_add. reflexivity. }
    pose proof u52_pos as Hu.
    assert (Hprod : (0 < p2 E * u52)%R) by (apply Rmult_lt_0_compat; assumption).
    assert (H2 : (p2 52 * (p2 E * u52) <= IZR t * (p2 E * u52))%R)
      by (apply Rmult_le_compat_r; lra).
    replace (p2 52 * (p2 E * u52))%R with (p2 E * (p2 52 * u52))%R in H2 by ring.
    rewrite H1 in H2. lra. }
  split; [|assumption].
  destruct (Z_le_gt_dec E (-1074)) as [Hle|Hgt].
  - assert (HE1 : E = -1074) by lia.
    assert (Ht0 : 0 <= t) by (apply Z.div_pos; [lia | apply Z.pow_pos_nonneg; lia]).
    apply IZR_le in Ht0. pose proof u52_pos as Hu.
    assert (Heq : p2 E = eta) by (rewrite HE1; reflexivity).
    assert (0 <= IZR t * p2 E * u52)%R by (repeat apply Rmult_le_pos; lra).
    lra.
  - specialize (Hnorm ltac:(lia)). lra.
Qed.

(** Rounding an exact value: the general bound, with the absolute term that
    covers the subnormal range. *)
Lemma BRA_exact_err s m ex :
  let res := binary_round_aux prec emax s (Z.pos m) ex loc_Exact in
  signIs s res /\
  (isFinSF res = true ->
   (IZR (Z.pos m) * p2 ex <= magR res * (1 + u52) + eta)%R /\
   (-1074 <= ex -> (IZR (Z.pos m) * p2 ex <= magR res * (1 + u52))%R)).
Proof.
  intros res. destruct (BRA_R s m ex loc_Exact) as [Hs Hv]. fold res in Hs, Hv.
  split; [assumption|]. intros Hfin. specialize (Hv Hfin).
  set (E := Z.max ex (fexp prec emax (Z.pos (digits2_pos m) + ex))) in *.
  destruct (trunc_upper m ex E ltac:(unfold E; lia)) as [Hup Heq].
  pose proof u52_pos. pose proof eta_pos.
  assert (Hmag : (0 <= magR res)%R).
  { destruct res; cbn [magR]; try lra. pose proof (p2_pos e).
    assert (0 < IZR (Z.pos m0))%R by (apply IZR_lt; lia). nra. }
  destruct (Z.eq_dec E ex) as [HE|HE].
  - specialize (Heq HE). split; [|intros _]; nra.
  - assert (HEf : E = fexp prec emax (Z.pos (digits2_pos m) + ex))
      by (unfold E in *; lia).
    destruct (ulp_bound m ex E HEf ltac:(unfold E; lia)) as [Hu1 Hu2].
    split; [nra|]. intros Hex.
    assert (-1074 < E) by (unfold E in *; lia). specialize (Hu2 H1). nra.
Qed.

Lemma magR_nonneg x : (0 <= magR x)%R.
Proof.
  destruct x; cbn [magR]; try lra. pose proof (p2_pos e).
  assert (0 < IZR (Z.pos m))%R by (apply IZR_lt; lia). nra.
Qed.

Lemma iter_xO m d : Z.pos (Pos.iter xO m d) = Z.pos m * 2 ^ Z.pos d.
Proof.
  induction d as [|d IH] using Pos.peano_ind.
  - simpl. lia.
  - rewrite Pos.iter_succ, Pos2Z.inj_xO, IH, Pos2Z.inj_succ, Z.pow_succ_r by lia.
    lia.
Qed.

(** [shl_align] keeps the value and lowers the exponent to the target. *)
Lemma shl_align_spec m e e' :
  let r := shl_align m e e' in
  snd r = Z.min e e' /\ Z.pos (fst r) = Z.pos m * 2 ^ (e - Z.min e e').
Proof.
  unfold shl_align. destruct (e' - e) as [|d|d] eqn:Hd; cbn [fst snd].
  - replace (Z.min e e') with e by lia. rewrite Z.sub_diag. lia.
  - replace (Z.min e e') with e by lia. rewrite Z.sub_diag. lia.
  - replace (Z.min e e') with e' by lia. rewrite iter_xO.
    replace (e - e') with (Z.pos d) by lia. lia.
Qed.

Lemma shl_align_R m e e' :
  (IZR (Z.pos (fst (shl_align m e e'))) * p2 (snd (shl_align m e e')) =
   IZR (Z.pos m) * p2 e)%R.
Proof.
  destruct (shl_align_spec m e e') as [H1 H2]. rewrite H1, H2.
  rewrite mult_IZR, p2_IZR by lia.
  assert (Hp : p2 e = (p2 (e - Z.min e e') * p2 (Z.min e e'))%R)
    by (rewrite <- p2_add; f_equal; lia).
  rewrite Hp. ring.
Qed.

Lemma binary_round_err s m e :
  let res := binary_round prec emax s m e in
  signIs s res /\
  (isFinSF res = true ->
   (IZR (Z.pos m) * p2 e <= magR res * (1 + u52) + eta)%R /\
   (-1074 <= e -> (IZR (Z.pos m) * p2 e <= magR res * (1 + u52))%R)).
Proof.
  unfold binary_round.
  pose proof (shl_align_R m e (fexp prec emax (Z.pos (digits2_pos m) + e))) as HR.
  destruct (shl_align_spec m e (fexp prec emax (Z.pos (digits2_pos m) + e)))
    as [H1 _].
  destruct (shl_align m e (fexp prec emax (Z.pos (digits2_pos m) + e)))
    as [mz ez]. cbn [fst snd] in *.
  destruct (BRA_exact_err s mz ez) as [Hs Hv].
  cbn zeta. split; [assumption|]. intros Hfin.
  destruct (Hv Hfin) as [Ha Hr]. rewrite HR in Ha, Hr. split; [assumption|].
  intros He. apply Hr.
  pose proof (fexp_ge (Z.pos (digits2_pos m) + e)). lia.
Qed.

Lemma binary_normalize_err M e zs :
  let res := binary_normalize prec emax M e zs in
  (0 <= M -> notNeg res) /\
  (isFinSF res = true ->
   (Rabs (IZR M) * p2 e <= magR res * (1 + u52) + eta)%R /\
   (-1074 <= e -> (Rabs (IZR M) * p2 e <= magR res * (1 + u52))%R)).
Proof.
  unfold binary_normalize. destruct M as [|p|p].
  - cbn zeta. split; [intros _; exact I|]. intros _. rewrite Rabs_R0.
    cbn [magR]. pose proof eta_pos. split; [lra | intros _; lra].
  - destruct (binary_round_err false p e) as [Hs Hv]. cbn zeta.
    split.
    + intros _. destruct (binary_round prec emax false p e); cbn in *;
        first [exact I | contradiction | (subst; exact I)].
    + intros Hfin. rewrite Rabs_pos_eq by (apply IZR_le; lia). apply Hv, Hfin.
  - destruct (binary_round_err true p e) as [Hs Hv]. cbn zeta.
    split; [lia|].
    intros Hfin. replace (Rabs (IZR (Z.neg p))) with (IZR (Z.pos p)).
    + apply Hv, Hfin.
    + change (Z.neg p) with (- Z.pos p). rewrite opp_IZR, Rabs_Ropp.
      symmetry. apply Rabs_pos_eq, IZR_le. lia.
Qed.

Lemma le_with_err (v : R) : (0 <= v -> v <= v * (1 + u52) + eta)%R.
Proof. pose proof u52_pos. pose proof eta_pos. nra. Qed.

Lemma le_with_rel (v : R) : (0 <= v -> v <= v * (1 + u52))%R.
Proof. pose proof u52_pos. nra. Qed.

(** Multiplication. *)
Lemma SFmul_err x y :
  isFinSF (SFmul prec emax x y) = true ->
  isFinSF x = true /\ isFinSF y = true /\
  (magR x * magR y <= magR (SFmul prec emax x y) * (1 + u52) + eta)%R.
Proof.
  pose proof eta_pos as Heta.
  destruct x as [sx|sx| |sx mx ex], y as [sy|sy| |sy my ey];
    cbn [SFmul isFinSF]; try discriminate; intros Hfin;
    (split; [reflexivity|]); (split; [reflexivity|]);
    cbn [magR]; try lra.
  destruct (BRA_exact_err (xorb sx sy) (mx * my) (ex + ey)) as [_ Hv].
  destruct (Hv Hfin) as [Ha _].
  set (res := binary_round_aux _ _ _ _ _ _) in *.
  rewrite Pos2Z.inj_mul, mult_IZR, p2_add in Ha. cbn [magR] in Ha |- *.
  lra.
Qed.

Lemma signIs_false_notNeg x : signIs false x -> notNeg x.
Proof.
  destruct x as [s|s| |s m e]; cbn; intros H;
    first [exact I | contradiction | (subst; exact I)].
Qed.

Lemma SFmul_self_notNeg x : notNeg (SFmul prec emax x x).
Proof.
  destruct x as [s|s| |s m e]; cbn [SFmul].
  - exact I.
  - destruct s; exact I.
  - exact I.
  - apply signIs_false_notNeg.
    destruct (BRA_exact_err (xorb s s) (m * m) (e + e)) as [Hs _].
    replace (xorb s s) with false in Hs by (destruct s; reflexivity).
    replace (xorb s s) with false by (destruct s; reflexivity). exact Hs.
Qed.

Lemma SFmul_pos_notNeg x m e :
  notNeg x -> notNeg (SFmul prec emax x (S754_finite false m e)).
Proof.
  destruct x as [s|s| |s mx ex]; cbn [SFmul]; intros Hx.
  - exact I.
  - destruct s; [contradiction | exact I].
  - exact I.
  - destruct s; [contradiction|]. apply signIs_false_notNeg.
    destruct (BRA_exact_err (xorb false false) (mx * m) (ex + e)) as [Hs _].
    exact Hs.
Qed.

(** Addition of two numbers that are not negative. *)
Lemma SFadd_err x y :
  notNeg x -> notNeg y ->
  isFinSF (SFadd prec emax x y) = true ->
  isFinSF x = true /\ isFinSF y = true /\ notNeg (SFadd prec emax x y) /\
  (magR x + magR y <= magR (SFadd prec emax x y) * (1 + u52) + eta)%R.
Proof.
  pose proof eta_pos as Heta. pose proof u52_pos as Hu.
  destruct x as [sx|sx| |sx mx ex], y as [sy|sy| |sy my ey];
    cbn [SFadd]; intros Hx Hy Hfin.
  - destruct sx, sy; repeat split; cbn [magR]; lra.
  - destruct sy; discriminate.
  - discriminate.
  - destruct sy; [contradiction|].
    pose proof (magR_nonneg (S754_finite false my ey)).
    repeat split. cbn [magR] in *. nra.
  - destruct sx, sy; discriminate.
  - destruct sx, sy; discriminate.
  - discriminate.
  - discriminate.
  - discriminate.
  - discriminate.
  - discriminate.
  - discriminate.
  - destruct sx; [contradiction|].
    pose proof (magR_nonneg (S754_finite false mx ex)).
    repeat split. cbn [magR] in *. nra.
  - discriminate.
  - discriminate.
  - destruct sx; [contradiction|]. destruct sy; [contradiction|].
    cbn [cond_Zopp] in *.
    set (ez := Z.min ex ey) in *.
    pose proof (shl_align_R mx ex ez) as Rx.
    pose proof (shl_align_R my ey ez) as Ry.
    destruct (shl_align_spec mx ex ez) as [Sx _].
    destruct (shl_align_spec my ey ez) as [Sy _].
    replace (Z.min ex ez) with ez in Sx by (unfold ez; lia).
    replace (Z.min ey ez) with ez in Sy by (unfold ez; lia).
    rewrite Sx in Rx. rewrite Sy in Ry.
    destruct (binary_normalize_err
                (Z.pos (fst (shl_align mx ex ez)) +
                 Z.pos (fst (shl_align my ey ez))) ez false) as [Hn Hv].
    cbn zeta in Hn, Hv.
    split; [reflexivity|]. split; [reflexivity|]. split; [apply Hn; lia|].
    destruct (Hv Hfin) as [Ha _].
    rewrite Rabs_pos_eq in Ha by (apply IZR_le; lia).
    rewrite plus_IZR in Ha. cbn [magR]. lra.
Qed.

Lemma Rabs_valR x : Rabs (valR x) = magR x.
Proof.
  destruct x as [s|s| |s m e]; cbn [valR magR]; try apply Rabs_R0.
  pose proof (p2_pos e). assert (0 < IZR (Z.pos m))%R by (apply IZR_lt; lia).
  assert (0 <= IZR (Z.pos m) * p2 e)%R by nra.
  destruct s.
  - replace (-1 * IZR (Z.pos m) * p2 e)%R with (- (IZR (Z.pos m) * p2 e))%R by ring.
    rewrite Rabs_Ropp. now apply Rabs_pos_eq.
  - replace (1 * IZR (Z.pos m) * p2 e)%R with (IZR (Z.pos m) * p2 e)%R by ring.
    now apply Rabs_pos_eq.
Qed.

(** Subtraction of two finite numbers. *)
Lemma SFsub_err x y :
  isFinSF x = true -> isFinSF y = true -> expOK x -> expOK y ->
  isFinSF (SFsub prec emax x y) = true ->
  (Rabs (valR x - valR y) <= magR (SFsub prec emax x y) * (1 + u52))%R.
Proof.
  pose proof u52_pos as Hu.
  destruct x as [sx|sx| |sx mx ex], y as [sy|sy| |sy my ey];
    cbn [SFsub isFinSF expOK]; intros Hx Hy Ex Ey Hfin; try discriminate.
  - cbn [valR]. rewrite Rminus_diag, Rabs_R0.
    destruct sx, sy; cbn [magR]; lra.
  - replace (valR (S754_zero sx) - valR (S754_finite sy my ey))%R
      with (- valR (S754_finite sy my ey))%R by (cbn [valR]; ring).
    rewrite Rabs_Ropp, Rabs_valR. cbn [magR].
    apply le_with_rel. apply (magR_nonneg (S754_finite sy my ey)).
  - replace (valR (S754_finite sx mx ex) - valR (S754_zero sy))%R
      with (valR (S754_finite sx mx ex))%R by (cbn [valR]; ring).
    rewrite Rabs_valR. apply le_with_rel, magR_nonneg.
  - set (ez := Z.min ex ey) in *.
    pose proof (shl_align_R mx ex ez) as Rx.
    pose proof (shl_align_R my ey ez) as Ry.
    destruct (shl_align_spec mx ex ez) as [Sx _].
    destruct (shl_align_spec my ey ez) as [Sy _].
    replace (Z.min ex ez) with ez in Sx by (unfold ez; lia).
    replace (Z.min ey ez) with ez in Sy by (unfold ez; lia).
    rewrite Sx in Rx. rewrite Sy in Ry.
    set (ax := Z.pos (fst (shl_align mx ex ez))) in *.
    set (ay := Z.pos (fst (shl_align my ey ez))) in *.
    destruct (binary_normalize_err (cond_Zopp sx ax - cond_Zopp sy ay) ez false)
      as [_ Hv].
    cbn zeta in Hv. destruct (Hv Hfin) as [_ Hr].
    specialize (Hr ltac:(unfold ez; lia)).
    assert (Hval : (valR (S754_finite sx mx ex) - valR (S754_finite sy my ey) =
                    IZR (cond_Zopp sx ax - cond_Zopp sy ay) * p2 ez)%R).
    { cbn [valR]. rewrite minus_IZR.
      replace (IZR (cond_Zopp sx ax)) with ((if sx then -1 else 1) * IZR ax)%R
        by (destruct sx; cbn [cond_Zopp]; [rewrite opp_IZR|]; ring).
      replace (IZR (cond_Zopp sy ay)) with ((if sy then -1 else 1) * IZR ay)%R
        by (destruct sy; cbn [cond_Zopp]; [rewrite opp_IZR|]; ring).
      destruct sx, sy; nra. }
    rewrite Hval, Rabs_mult, (Rabs_pos_eq (p2 ez)) by (pose proof (p2_pos ez); lra).
    exact Hr.
Qed.

(** Square root. *)
Lemma sqrt_core_spec m e :
  let '(q, e', l) := SFsqrt_core_binary prec emax (Z.pos m) e in
  exists qp, q = Z.pos qp /\
    Z.pos m * 2 ^ (e - 2 * e') < (q + 1) * (q + 1) /\
    0 <= e - 2 * e' /\
    e' <= fexp prec emax (Z.pos (digits2_pos qp) + e').
Proof.
  unfold SFsqrt_core_binary. cbn [Zdigits2].
  set (d := Z.pos (digits2_pos m)).
  set (M := Z.div2 (d + e + 1)).
  set (e' := Z.min (fexp prec emax M) (Z.div2 e)).
  assert (HM : 2 * M <= d + e + 1 < 2 * M + 2).
  { unfold M. rewrite Z.div2_div.
    pose proof (Z.div_mod (d + e + 1) 2 ltac:(lia)).
    pose proof (Z.mod_pos_bound (d + e + 1) 2 ltac:(lia)). lia. }
  assert (He2 : 2 * Z.div2 e <= e).
  { rewrite Z.div2_div. pose proof (Z.div_mod e 2 ltac:(lia)).
    pose proof (Z.mod_pos_bound e 2 ltac:(lia)). lia. }
  assert (Hs : 0 <= e - 2 * e') by (unfold e'; lia).
  set (s := e - 2 * e') in *.
  set (m' := match s with Z.pos _ => Z.shiftl (Z.pos m) s | 0 => Z.pos m | Z.neg _ => 0 end).
  assert (Hm' : m' = Z.pos m * 2 ^ s).
  { unfold m'. destruct s as [|p|p] eqn:Hsp; [rewrite Z.pow_0_r; lia| |lia].
    apply Z.shiftl_mul_pow2. lia. }
  assert (Hm'pos : 0 < m').
  { rewrite Hm'. assert (0 < 2 ^ s) by (apply Z.pow_pos_nonneg; lia). nia. }
  pose proof (Z.sqrtrem_spec m' ltac:(lia)) as Hsq.
  destruct (Z.sqrtrem m') as [q r]. destruct Hsq as [Hq Hr].
  assert (Hqpos : 0 < q) by nia.
  destruct q as [|qp|qp]; try lia.
  exists qp. split; [reflexivity|].
  split; [fold s; rewrite <- Hm'; nia|]. split; [exact Hs|].
  (* the digits of the root *)
  pose proof (digits2_pos_bounds m) as [Hmlo _]. fold d in Hmlo.
  pose proof (digits2_pos_bounds qp) as [_ Hqhi].
  set (dq := Z.pos (digits2_pos qp)) in *.
  assert (Hdq : M <= dq + e').
  { destruct (Z_le_gt_dec (M - e') dq) as [|Hgt]; [lia|]. exfalso.
    set (k := M - e' - 1). assert (Hk : 0 <= k) by (unfold k, dq in *; lia).
    assert (H1 : 2 ^ (2 * k) <= m').
    { rewrite Hm'. apply Z.le_trans with (2 ^ (d - 1) * 2 ^ s).
      - rewrite <- Z.pow_add_r by (unfold d; lia).
        apply Z.pow_le_mono_r; [lia|]. unfold k, s. lia.
      - apply Z.mul_le_mono_nonneg_r; [apply Z.pow_nonneg; lia | assumption]. }
    replace (2 * k) with (k + k) in H1 by lia. rewrite Z.pow_add_r in H1 by lia.
    assert (H2 : 2 ^ k <= Z.pos qp).
    { assert (0 < 2 ^ k) by (apply Z.pow_pos_nonneg; lia). nia. }
    assert (H3 : 2 ^ dq <= 2 ^ k) by (apply Z.pow_le_mono_r; unfold k; lia).
    lia. }
  assert (H4 : e' <= fexp prec emax M) by (unfold e'; lia).
  rewrite fexp_eq in H4 |- *. fold dq. lia.
Qed.

Lemma SFsqrt_notNeg x : notNeg (SFsqrt prec emax x).
Proof.
  destruct x as [s|s| |s m e]; cbn [SFsqrt].
  - exact I.
  - destruct s; exact I.
  - exact I.
  - destruct s; [exact I|].
    pose proof (sqrt_core_spec m e) as Hc.
    destruct (SFsqrt_core_binary prec emax (Z.pos m) e) as [[q e'] l].
    destruct Hc as (qp & -> & _).
    apply signIs_false_notNeg. apply (BRA_R false qp).
Qed.

Lemma SFsqrt_err x :
  isFinSF (SFsqrt prec emax x) = true ->
  isFinSF x = true /\
  (magR x <= (magR (SFsqrt prec emax x) * (1 + u52) + eta) *
             (magR (SFsqrt prec emax x) * (1 + u52) + eta))%R.
Proof.
  pose proof eta_pos as Heta. pose proof u52_pos as Hu.
  destruct x as [s|s| |s m e]; cbn [SFsqrt]; intros Hfin;
    try discriminate.
  - split; [reflexivity|]. cbn [magR]. nra.
  - destruct s; discriminate.
  - destruct s; [discriminate|]. split; [reflexivity|].
    pose proof (sqrt_core_spec m e) as Hc.
    destruct (SFsqrt_core_binary prec emax (Z.pos m) e) as [[q e'] l].
    destruct Hc as (qp & -> & Hlt & Hs & He').
    destruct (BRA_R false qp e' l) as [_ Hv]. cbn zeta in Hv.
    specialize (Hv Hfin).
    set (res := binary_round_aux prec emax false (Z.pos qp) e' l) in *.
    set (E := Z.max e' (fexp prec emax (Z.pos (digits2_pos qp) + e'))) in *.
    assert (HE : E = fexp prec emax (Z.pos (digits2_pos qp) + e'))
      by (unfold E; lia).
    assert (HeE : e' <= E) by (unfold E; lia).
    destruct (ulp_bound qp e' E HE HeE) as [Hulp _].
    set (t := Z.pos qp / 2 ^ (E - e')) in *.
    assert (Hp : 0 < 2 ^ (E - e')) by (apply Z.pow_pos_nonneg; lia).
    assert (Hq1 : Z.pos qp + 1 <= (t + 1) * 2 ^ (E - e')).
    { unfold t. pose proof (Z.mod_pos_bound (Z.pos qp) _ Hp).
      pose proof (Z.div_mod (Z.pos qp) (2 ^ (E - e')) ltac:(lia)). nia. }
    apply IZR_le in Hq1. rewrite mult_IZR, !plus_IZR, p2_IZR in Hq1 by lia.
    assert (HpE : p2 E = (p2 (E - e') * p2 e')%R)
      by (rewrite <- p2_add; f_equal; lia).
    pose proof (p2_pos e') as Hpe'. pose proof (p2_pos E) as HpE0.
    pose proof (magR_nonneg res) as Hres.
    set (Y := (magR res * (1 + u52) + eta)%R).
    assert (HY : (IZR (Z.pos qp + 1) * p2 e' <= Y)%R).
    { rewrite plus_IZR. unfold Y.
      assert ((IZR (Z.pos qp) + 1) * p2 e' <= IZR t * p2 E + p2 E)%R.
      { rewrite HpE. nra. }
      nra. }
    assert (Hval : (IZR (Z.pos m) * p2 e <
                    (IZR (Z.pos qp + 1) * p2 e') * (IZR (Z.pos qp + 1) * p2 e'))%R).
    { apply IZR_lt in Hlt. rewrite !mult_IZR, p2_IZR in Hlt by lia.
      assert (Hpe : p2 e = (p2 (e - 2 * e') * (p2 e' * p2 e'))%R).
      { rewrite <- !p2_add. f_equal. lia. }
      rewrite Hpe.
      assert (0 < p2 e' * p2 e')%R by nra. nra. }
    cbn [magR].
    assert (0 < IZR (Z.pos qp + 1) * p2 e')%R.
    { assert (0 < IZR (Z.pos qp + 1))%R by (apply IZR_lt; lia). nra. }
    nra.
Qed.

(** Numbers of the format. *)

Lemma valid_finite s m e :
  SpecFloat.valid_binary prec emax (S754_finite s m e) = true ->
  -1074 <= e /\ Z.pos (digits2_pos m) <= 53 /\
  (-1074 < e -> Z.pos (digits2_pos m) = 53).
Proof.
  cbn [SpecFloat.valid_binary]. unfold SpecFloat.bounded, canonical_mantissa.
  intros H. apply andb_prop in H. destruct H as [H _].
  apply Z.eqb_eq in H. rewrite fexp_eq in H. lia.
Qed.

Lemma valid_expOK x : SpecFloat.valid_binary prec emax x = true -> expOK x.
Proof.
  destruct x as [s|s| |s m e]; cbn [expOK]; try exact (fun _ => I).
  intros H. apply (valid_finite s m e H).
Qed.

(** [x <= y] on numbers of the format is the order of their values. *)
Lemma SFleb_val x y :
  SpecFloat.valid_binary prec emax x = true ->
  SpecFloat.valid_binary prec emax y = true ->
  notNeg x -> isFinSF y = true -> SFleb x y = true ->
  isFinSF x = true /\ (magR x <= valR y)%R.
Proof.
  intros Vx Vy Hx Hy. unfold SFleb.
  destruct x as [s1|s1| |s1 m1 e1], y as [s2|s2| |s2 m2 e2];
    cbn [SFcompare isFinSF magR valR notNeg] in *; try discriminate.
  - intros _. split; [reflexivity|lra].
  - destruct s2; [discriminate|]. intros _. split; [reflexivity|].
    pose proof (p2_pos e2). assert (0 < IZR (Z.pos m2))%R by (apply IZR_lt; lia).
    nra.
  - destruct s1; [contradiction|discriminate].
  - destruct s1; [contradiction|discriminate].
  - destruct s1; [contradiction|discriminate].
  - destruct s1; [contradiction|]. destruct s2; [discriminate|].
    pose proof (p2_pos e1) as P1. pose proof (p2_pos e2) as P2.
    destruct (valid_finite _ _ _ Vx) as (Hx1 & Hx2 & _).
    destruct (valid_finite _ _ _ Vy) as (_ & _ & Hy3).
    destruct (Z.compare_spec e1 e2) as [He|He|He].
    + change (PosDef.Pos.compare_cont Eq m1 m2) with (Pos.compare m1 m2).
      destruct (Pos.compare_spec m1 m2) as [Hm|Hm|Hm]; try discriminate;
        intros _; (split; [reflexivity|]); subst.
      * lra.
      * assert (IZR (Z.pos m1) <= IZR (Z.pos m2))%R by (apply IZR_le; lia).
        nra.
    + intros _. split; [reflexivity|].
      pose proof (digits2_pos_bounds m1) as [_ H1].
      pose proof (digits2_pos_bounds m2) as [H2 _].
      rewrite (Hy3 ltac:(lia)) in H2.
      assert (H1' : Z.pos m1 <= 2 ^ 53).
      { apply Z.le_trans with (2 ^ Z.pos (digits2_pos m1)); [lia|].
        apply Z.pow_le_mono_r; lia. }
      apply IZR_le in H1', H2.
      change (2 ^ 53) with (2 * 2 ^ 52) in H1'.
      change (2 ^ (53 - 1)) with (2 ^ 52) in H2.
      rewrite mult_IZR in H1'.
      assert (H52 : (0 < IZR (2 ^ 52))%R) by (apply IZR_lt; reflexivity).
      pose proof (p2_le (e1 + 1) e2 ltac:(lia)) as Hp.
      rewrite p2_add in Hp.
      assert (Hp1 : p2 1 = 2%R) by (unfold p2; simpl; lra). rewrite Hp1 in Hp.
      set (c := IZR (2 ^ 52)) in *.
      assert (IZR (Z.pos m1) * p2 e1 <= c * (2 * p2 e1))%R by nra.
      assert (c * (2 * p2 e1) <= c * p2 e2)%R by nra.
      assert (c * p2 e2 <= IZR (Z.pos m2) * p2 e2)%R by nra.
      lra.
    + discriminate.
Qed.

Lemma SFsub_fin x y :
  isFinSF (SFsub prec emax x y) = true -> isFinSF x = true /\ isFinSF y = true.
Proof.
  destruct x as [s1|s1| |s1 m1 e1], y as [s2|s2| |s2 m2 e2];
    cbn [SFsub isFinSF]; try (intros; split; reflexivity); try discriminate;
    try (destruct s1, s2; cbn; discriminate);
    try (destruct s1; cbn; discriminate);
    try (destruct s2; cbn; discriminate).
Qed.

(** The chain of roundings, on real numbers. *)

#[local] Open Scope R_scope.

Lemma margin_chain (u eta t A B a b p q w s d r : R) :
  0 < u <= 1 / 16 -> 0 < eta -> 0 < t -> t * t = 4 * eta ->
  0 <= a -> 0 <= b -> 0 <= p -> 0 <= q -> 0 <= w -> 0 <= s -> 0 <= d ->
  Rabs A <= a * (1 + u) -> Rabs B <= b * (1 + u) ->
  a * a <= p * (1 + u) + eta -> b * b <= q * (1 + u) + eta ->
  p + q <= w * (1 + u) + eta ->
  w <= (s * (1 + u) + eta) * (s * (1 + u) + eta) ->
  s * 111 <= d * (1 + u) + eta ->
  d <= r ->
  let bound := r / 111 * (1 + 8 * u) + (2 * eta + t) in
  0 <= bound /\ A * A + B * B <= bound * bound.
Proof.
  intros [Hu0 Hu1] Heta Ht Htt Ha Hb HP HQ HW HS HD HA HB Haa Hbb HPQ HWS HSD HDr.
  set (K := 1 + u) in *.
  assert (HK : 1 < K <= 17 / 16) by (unfold K; lra).
  set (R0 := r / 111). assert (Hr : r = 111 * R0) by (unfold R0; field).
  assert (HR0 : 0 <= R0) by lra.
  cbv zeta.
  assert (HK2 : 1 < K * K <= 290 / 256) by nra.
  assert (HK3 : 1 < K * K * K <= 5000 / 4096) by nra.
  assert (HK4 : K * K * K * K <= 1 + 8 * u).
  { unfold K. assert (0 < u * u <= u / 16) by nra.
    assert (0 < u * u * u <= u / 256) by nra.
    assert (0 < u * u * u * u <= u / 4096) by nra. nra. }
  assert (HA' : - (a * K) <= A <= a * K).
  { pose proof (Rle_abs A). pose proof (Rle_abs (- A)) as H1.
    rewrite Rabs_Ropp in H1. lra. }
  assert (HB' : - (b * K) <= B <= b * K).
  { pose proof (Rle_abs B). pose proof (Rle_abs (- B)) as H1.
    rewrite Rabs_Ropp in H1. lra. }
  assert (HAA : A * A <= K * K * (a * a)).
  { assert (0 <= (a * K - A) * (a * K + A)) by (apply Rmult_le_pos; lra). nra. }
  assert (HBB : B * B <= K * K * (b * b)).
  { assert (0 <= (b * K - B) * (b * K + B)) by (apply Rmult_le_pos; lra). nra. }
  assert (Hab : a * a + b * b <= K * (K * w + eta) + 2 * eta) by nra.
  set (X := K * K * (s * K + eta)).
  assert (HX0 : 0 <= X) by (unfold X; apply Rmult_le_pos; nra).
  assert (HWX : K * K * (K * K * w) <= X * X).
  { unfold X. 
    replace (K * K * (s * K + eta) * (K * K * (s * K + eta)))
      with (K * K * (K * K * ((s * K + eta) * (s * K + eta)))) by ring.
    apply Rmult_le_compat_l; [nra|]. apply Rmult_le_compat_l; [nra|]. exact HWS. }
  assert (Hsum : A * A + B * B <= X * X + 4 * eta).
  { assert (A * A + B * B <= K * K * (K * (K * w + eta) + 2 * eta)).
    { apply Rle_trans with (K * K * (a * a + b * b)); [lra|].
      apply Rmult_le_compat_l; [nra|exact Hab]. }
    assert (K * K * K * eta + 2 * (K * K) * eta <= 4 * eta) by nra.
    nra. }
  set (Y := R0 * (1 + 8 * u) + 2 * eta).
  assert (HS' : s <= R0 * K + eta / 111) by (rewrite Hr in HDr; nra).
  assert (HXY : X <= Y).
  { unfold X, Y.
    assert (s * K + eta <= (R0 * K + eta / 111) * K + eta) by nra.
    apply Rle_trans with (K * K * ((R0 * K + eta / 111) * K + eta)).
    - apply Rmult_le_compat_l; [nra|assumption].
    - replace (K * K * ((R0 * K + eta / 111) * K + eta))
        with (R0 * (K * K * K * K) + eta * (K * K * K / 111 + K * K)) by field.
      assert (R0 * (K * K * K * K) <= R0 * (1 + 8 * u))
        by (apply Rmult_le_compat_l; assumption).
      assert (eta * (K * K * K / 111 + K * K) <= eta * 2)
        by (apply Rmult_le_compat_l; lra).
      lra. }
  fold R0. fold Y.
  replace (R0 * (1 + 8 * u) + (2 * eta + t)) with (Y + t) by (unfold Y; ring).
  assert (HY0 : 0 <= Y) by lra.
  split; [lra|].
  assert (X * X <= Y * Y) by nra.
  nra.
Qed.

#[local] Close Scope R_scope.


Lemma magR_c111 : magR c111 = 111%R.
Proof.
  cbn [magR c111]. change 7810930603720704 with (111 * 2 ^ 46).
  rewrite mult_IZR, p2_IZR by lia. rewrite Rmult_assoc, <- p2_add.
  change (46 + -46) with 0. rewrite p2_0. lra.
Qed.

Lemma u52_small : (0 < u52 <= 1 / 16)%R.
Proof.
  split; [apply u52_pos|]. unfold u52.
  apply Rle_trans with (p2 (-4)); [apply p2_le; lia|].
  unfold p2. simpl. lra.
Qed.

Lemma p2_536 : (p2 (-536) * p2 (-536) = 4 * eta)%R.
Proof.
  unfold eta. rewrite <- p2_add. change (-536 + -536) with (2 + -1074).
  rewrite p2_add. f_equal. unfold p2. simpl. lra.
Qed.

(** The distance test on numbers of the format: when it succeeds, the
    coordinates are finite and the exact distance is within the radius over
    111, up to the roundings. *)
Lemma SF_margin gx gy x y r :
  SpecFloat.valid_binary prec emax gx = true ->
  SpecFloat.valid_binary prec emax gy = true ->
  SpecFloat.valid_binary prec emax x = true ->
  SpecFloat.valid_binary prec emax y = true ->
  SpecFloat.valid_binary prec emax r = true ->
  isFinSF r = true ->
  let a := SFsub prec emax gx x in
  let b := SFsub prec emax gy y in
  let D := SFmul prec emax
             (SFsqrt prec emax
                (SFadd prec emax (SFmul prec emax a a) (SFmul prec emax b b)))
             c111 in
  SpecFloat.valid_binary prec emax D = true ->
  SFleb D r = true ->
  let bound := (valR r / 111 * (1 + 8 * u52) + (2 * eta + p2 (-536)))%R in
  (isFinSF gx = true /\ isFinSF gy = true /\
   isFinSF x = true /\ isFinSF y = true) /\
  (0 <= bound /\
   (valR gx - valR x) * (valR gx - valR x) +
   (valR gy - valR y) * (valR gy - valR y) <= bound * bound)%R.
Proof.
  intros Vgx Vgy Vx Vy Vr Fr a b D VD Hle bound.
  set (sqLat := SFmul prec emax a a) in *.
  set (sqLng := SFmul prec emax b b) in *.
  set (sum := SFadd prec emax sqLat sqLng) in *.
  set (root := SFsqrt prec emax sum) in *.
  assert (Nroot : notNeg root) by apply SFsqrt_notNeg.
  assert (ND : notNeg D) by (apply SFmul_pos_notNeg; exact Nroot).
  destruct (SFleb_val D r VD Vr ND Fr Hle) as [FD HDr].
  destruct (SFmul_err root c111 FD) as (Froot & _ & HSD).
  rewrite magR_c111 in HSD.
  destruct (SFsqrt_err sum Froot) as (Fsum & HWS).
  assert (NsqLat : notNeg sqLat) by apply SFmul_self_notNeg.
  assert (NsqLng : notNeg sqLng) by apply SFmul_self_notNeg.
  destruct (SFadd_err sqLat sqLng NsqLat NsqLng Fsum)
    as (FsqLat & FsqLng & _ & HPQ).
  destruct (SFmul_err a a FsqLat) as (Fa & _ & Haa).
  destruct (SFmul_err b b FsqLng) as (Fb & _ & Hbb).
  destruct (SFsub_fin gx x Fa) as [Fgx Fx].
  destruct (SFsub_fin gy y Fb) as [Fgy Fy].
  pose proof (SFsub_err gx x Fgx Fx (valid_expOK _ Vgx) (valid_expOK _ Vx) Fa)
    as HA.
  pose proof (SFsub_err gy y Fgy Fy (valid_expOK _ Vgy) (valid_expOK _ Vy) Fb)
    as HB.
  split; [by repeat split|].
  exact (margin_chain u52 eta (p2 (-536)) _ _ (magR a) (magR b) (magR sqLat)
           (magR sqLng) (magR sum) (magR root) (magR D) (valR r)
           u52_small eta_pos (p2_pos _) p2_536
           (magR_nonneg _) (magR_nonneg _) (magR_nonneg _) (magR_nonneg _)
           (magR_nonneg _) (magR_nonneg _) (magR_nonneg _)
           HA HB Haa Hbb HPQ HWS HSD HDr).
Qed.

(** Exact values, as rationals and as real numbers. *)
Lemma Q2R_inject_Z (z : Z) : Q2R (inject_Z z) = IZR z.
Proof. unfold Q2R, inject_Z. cbn [Qnum Qden]. rewrite Rinv_1. ring. Qed.

Lemma Q2R_two : Q2R 2 = 2%R.
Proof. unfold Q2R. cbn [Qnum Qden]. rewrite Rinv_1. ring. Qed.

Lemma Q2R_pow2 (e : Z) : Q2R (Qpower 2 e) = p2 e.
Proof.
  rewrite Q2RpowerRZ by (left; intros H; discriminate H).
  unfold p2. by rewrite Q2R_two.
Qed.

Lemma Q2R_exact (x : float) : Q2R (exact x) = valR (Prim2SF x).
Proof.
  unfold exact. destruct (Prim2SF x) as [s|s| |s m e]; cbn [valR];
    try apply Q2R_0.
  rewrite !Q2R_mult, Q2R_pow2, Q2R_inject_Z. f_equal. f_equal.
  destruct s; unfold Q2R; cbn [Qnum Qden]; rewrite Rinv_1; ring.
Qed.

(** The margin of [beyondMargin] covers the bound of the chain. *)
Lemma margin_covers :
  (p2 (-49) = 8 * u52 ∧ 2 * eta + p2 (-536) <= p2 (-535))%R.
Proof.
  unfold u52, eta. split.
  - change (-49) with (3 + -52). rewrite p2_add. f_equal.
    unfold p2. simpl. lra.
  - assert (H1 : p2 1 = 2%R) by (unfold p2; simpl; lra).
    change (-535) with (1 + -536). rewrite p2_add, H1.
    pose proof (p2_le (1 + -1074) (-536) ltac:(lia)) as H.
    rewrite p2_add, H1 in H. lra.
Qed.

(** A group that the filter keeps, for a finite radius, has finite
    coordinates, as the origin has, and lies within the margin. *)
Lemma isNearby_within_margin (lat lng radiusKm : float) (g : Group.t) :
  isFinite radiusKm = true →
  isNearby lat lng radiusKm g = true →
  (isFinite (Group.lat g) = true ∧ isFinite (Group.lng g) = true ∧
   isFinite lat = true ∧ isFinite lng = true) ∧
  ¬ beyondMargin lat lng radiusKm g.
Proof.
  intros Fr Hnear.
  pose proof (Prim2SF_valid (distanceKm lat lng g)) as VD.
  unfold isNearby in Hnear. rewrite leb_spec in Hnear.
  unfold distanceKm, degrees in Hnear, VD.
  rewrite mul_spec, sqrt_spec, add_spec, !mul_spec, !sub_spec in Hnear, VD.
  change (Prim2SF 111) with c111 in Hnear, VD.
  destruct (SF_margin _ _ _ _ _
              (Prim2SF_valid (Group.lat g)) (Prim2SF_valid (Group.lng g))
              (Prim2SF_valid lat) (Prim2SF_valid lng)
              (Prim2SF_valid radiusKm) Fr VD Hnear) as [Hfin [Hpos Hle]].
  split; [exact Hfin|].
  destruct margin_covers as [H49 H535].
  unfold beyondMargin. cbv zeta.
  set (bq := (exact radiusKm / 111 * (1 + Qpower 2 (-49))
              + Qpower 2 (-535))%Q).
  assert (Hbq : Q2R bq =
                (valR (Prim2SF radiusKm) / 111 * (1 + p2 (-49))
                 + p2 (-535))%R).
  { unfold bq.
    rewrite Q2R_plus, Q2R_mult, Q2R_plus, Q2R_div, !Q2R_pow2, Q2R_exact
      by (intros H; discriminate H).
    replace (Q2R 111) with 111%R
      by (unfold Q2R; cbn [Qnum Qden]; rewrite Rinv_1; ring).
    by rewrite Q2R_1. }
  set (bound := (valR (Prim2SF radiusKm) / 111 * (1 + 8 * u52)
                 + (2 * eta + p2 (-536)))%R) in *.
  assert (Hb : (bound <= Q2R bq)%R) by (rewrite Hbq, H49; unfold bound; lra).
  intros [Hneg|Hfar].
  - apply Qlt_Rlt in Hneg. rewrite Q2R_0 in Hneg. lra.
  - apply Qlt_Rlt in Hfar.
    rewrite Q2R_plus, !Q2R_mult, !Q2R_minus, !Q2R_exact in Hfar.
    assert (bound * bound <= Q2R bq * Q2R bq)%R by nra.
    lra.
Qed.

End Rounding.

(** C6, as the code has it.  For a group of the directory:
    - if it lies at the coordinates of the origin (finite numbers), it is in
      the result of [listGroupsNearby] for every [radiusKm >= 0];
    - if its Euclidean distance from the origin, in degrees and in exact
      arithmetic, exceeds [radiusKm / 111 * (1 + 2^-49) + 2^-535], it is not
      in the result, for every finite [radiusKm]; neither is it if one of
      the four coordinates is an infinity or NaN.  The margin over
      [radiusKm / 111] is what the roundings of
      [sqrt(dLat * dLat + dLng * dLng) * 111 <= radiusKm] can hide. *)
Theorem listGroupsNearby_filter (lat lng radiusKm : float) (g : Group.t)
    (b : Backend) :
  In g (groups b) →
  (Group.lat g = lat → Group.lng g = lng →
   isFinite lat = true → isFinite lng = true →
   (0 <=? radiusKm)%float = true →
   In g (listGroupsNearby lat lng (Some radiusKm) b)) ∧
  (isFinite radiusKm = true →
   beyondMargin lat lng radiusKm g ∨
   isFinite (Group.lat g) && isFinite (Group.lng g)
     && isFinite lat && isFinite lng = false →
   ¬ In g (listGroupsNearby lat lng (Some radiusKm) b)).
Proof.
  intros Hg. unfold listGroupsNearby. cbn [from_option Datatypes.id]. split.
  - intros Hlat Hlng Hflat Hflng Hr. apply filter_In. split; [done|].
    unfold isNearby. by rewrite (distanceKm_same _ _ _ Hlat Hlng Hflat Hflng).
  - intros Hfin Hout [_ Hnear]%filter_In.
    destruct (isNearby_within_margin _ _ _ _ Hfin Hnear)
      as [(H1 & H2 & H3 & H4) Hin].
    destruct Hout as [Hfar|Hnan]; [exact (Hin Hfar)|].
    by rewrite H1, H2, H3, H4 in Hnan.
Qed.

(** C6, as stated, fails next to the boundary.
    - The group [nightOwls] lies at latitude 0.7117117117117118 on the zero
      meridian.  From the origin (0, 0) it is farther than 79/111 degrees,
      in exact arithmetic and also when both sides are taken in binary64;
      [listGroupsNearby] with radius 79 returns it all the same, because the
      product by 111 rounds to 79.
    - The group [trafficJam] lies at latitude 0.45045045045045046, farther
      than 50/111 degrees from the origin in exact arithmetic; the product
      rounds to 50 and [loadNearby], whose radius is 50, returns it. *)
Lemma nearby_beyond_radius :
  (fartherThan 0 0 79 nightOwls ∧
   (79 / 111 <? degrees 0 0 nightOwls)%float = true ∧
   distanceKm 0 0 nightOwls = 79%float ∧
   listGroupsNearby 0 0 (Some 79%float) (run backend0 [createNightOwls])
     = [nightOwls]) ∧
  (fartherThan 0 0 50 trafficJam ∧
   distanceKm 0 0 trafficJam = 50%float ∧
   snd (loadNearby origin 2000 (run backend0 [createTrafficJam]))
     = [trafficJam]).
Proof.
  split; (split; [right; vm_compute; reflexivity|]);
    repeat split; vm_compute; reflexivity.
Qed.

(** ** The statements on the sample data *)

Lemma loadNearby_never_expired_witness :
  In afterparty (snd (loadNearby manila (1000 + DAY_MS) (run backend0 evening)))
  ∧ ¬ (Group.expiresAt afterparty <= 1000 + DAY_MS)
  ∧ snd (loadNearby manila (1000 + DAY_MS) (run backend0 evening)) = [afterparty].
Proof.
  assert (H : In afterparty
                (snd (loadNearby manila (1000 + DAY_MS) (run backend0 evening))))
    by (vm_compute; left; reflexivity).
  split; [exact H|]. split.
  - exact (proj1 (loadNearby_never_expired _ _ _ _ H)).
  - vm_compute. reflexivity.
Defined.

Lemma expired_group_gone_witness :
  NoDup (map Group.id (groups (run backend0 evening))) ∧
  In studyRoom (groups (run backend0 evening)) ∧
  Group.expiresAt studyRoom <= 1000 + DAY_MS ∧
  getMessages (Group.id studyRoom) (run backend0 evening) ≠ [] ∧
  getMessages (Group.id studyRoom)
    (removeExpired (1000 + DAY_MS) (run backend0 evening)) = [].
Proof.
  assert (H1 : NoDup (map Group.id (groups (run backend0 evening))))
    by (apply (bool_decide_unpack _); vm_compute; exact I).
  assert (H2 : In studyRoom (groups (run backend0 evening)))
    by (vm_compute; left; reflexivity).
  assert (H3 : Group.expiresAt studyRoom <= 1000 + DAY_MS)
    by (vm_compute; discriminate).
  assert (H4 : Forall (λ e, createdId e ≠ Some (Group.id studyRoom))
                 [createTrafficJam; sayHello])
    by (repeat constructor; vm_compute; discriminate).
  repeat (split; [assumption|]). split.
  - vm_compute. discriminate.
  - exact (proj1 (expired_group_gone _ _ _ _ manila (2000 + DAY_MS)
                    H1 H2 H3 H4)).
Defined.

Lemma send_anonymous_rejected_witness :
  Group.anonymousAllowed studyRoom = false ∧
  snd (send studyRoom (JsString.lit "ana") true (JsString.lit "hi")
         (JsString.lit "p0o9i8u") 3000 (run backend0 evening))
    = SendAlert ANON_ALERT.
Proof.
  split; [reflexivity|].
  exact (proj2 (proj2 (send_anonymous_rejected studyRoom _ (JsString.lit "hi")
                         _ _ _ eq_refl))).
Defined.

Lemma send_blank_noop_witness :
  JsString.blank spaces = true ∧
  send studyRoom (JsString.lit "ana") false spaces (JsString.lit "p0o9i8u")
    3000 (run backend0 evening) = (run backend0 evening, SendIgnored).
Proof.
  split; [reflexivity|].
  exact (proj1 (send_blank_noop _ _ _ spaces _ _ _ [] eq_refl)).
Defined.

Lemma listGroupsNearby_filter_witness :
  In studyRoom (groups (run backend0 evening)) ∧
  In studyRoom
    (listGroupsNearby (latitude manila) (longitude manila) (Some 0%float)
       (run backend0 evening)) ∧
  isFinite 50 = true ∧ beyondMargin 0 0 50 studyRoom ∧
  ¬ In studyRoom
      (listGroupsNearby 0 0 (Some 50%float) (run backend0 evening)).
Proof.
  assert (H : In studyRoom (groups (run backend0 evening)))
    by (vm_compute; left; reflexivity).
  assert (Hfar : beyondMargin 0 0 50 studyRoom)
    by (right; vm_compute; reflexivity).
  split; [exact H|]. split; [|split; [reflexivity|split; [exact Hfar|]]].
  - exact (proj1 (listGroupsNearby_filter _ _ 0 _ _ H)
             eq_refl eq_refl eq_refl eq_refl eq_refl).
  - exact (proj2 (listGroupsNearby_filter 0 0 50 _ _ H) eq_refl
             (or_introl Hfar)).
Defined.

Lemma postMessage_unknown_id_witness :
  messages (run backend0 evening) !! strayId = None ∧
  Forall (λ e, sweeps e = false ∧ createdId e ≠ Some strayId)
    [sayHello; createTrafficJam] ∧
  getMessages strayId (fst (postMessage strayId hello (run backend0 evening)))
    = [hello] ∧
  getMessages strayId
    (removeExpired 5000
       (run (fst (postMessage strayId hello (run backend0 evening)))
          [sayHello; createTrafficJam])) = [].
Proof.
  assert (H1 : messages (run backend0 evening) !! strayId = None)
    by (vm_compute; reflexivity).
  assert (H2 : Forall (λ e, sweeps e = false ∧ createdId e ≠ Some strayId)
                 [sayHello; createTrafficJam])
    by (repeat constructor; vm_compute; discriminate).
  split; [exact H1|]. split; [exact H2|].
  pose proof (postMessage_unknown_id evening strayId hello _ 5000 H1 H2)
    as (_ & Ha & _ & Hb).
  split; [exact Ha | exact Hb].
Defined.

Lemma removeExpired_no_orphans_witness :
  messages (removeExpired 5000 (run backend0 evening)) !! Group.id studyRoom
    = Some (getMessages (Group.id studyRoom) (run backend0 evening)) ∧
  ∃ g, In g (groups (removeExpired 5000 (run backend0 evening))) ∧
       Group.id g = Group.id studyRoom ∧ 5000 < Group.expiresAt g.
Proof.
  assert (H : messages (removeExpired 5000 (run backend0 evening))
                !! Group.id studyRoom
              = Some (getMessages (Group.id studyRoom) (run backend0 evening)))
    by (vm_compute; reflexivity).
  split; [exact H|].
  exact (proj1 (removeExpired_no_orphans _ _ _ _ H)).
Defined.

(** ** Two scenarios, start to end *)

(** A group that forbids anonymous posts: a named "hello" is stored under the
    handle, and an anonymous "hi" raises the alert and stores nothing. *)
Example named_then_anonymous :
  let b1 := run backend0 [createStudyRoom; sayHello] in
  let r := send studyRoom (JsString.lit "ana") true (JsString.lit "hi")
             (JsString.lit "p0o9i8u") 3000 b1 in
  getMessages (Group.id studyRoom) b1 =
    [Message.mk (JsString.lit "m4n5b6v") (JsString.lit "hello") 2000
       (JsString.lit "ana") false] ∧
  snd r = SendAlert ANON_ALERT ∧
  length (getMessages (Group.id studyRoom) (fst r)) = 1%nat.
Proof. vm_compute. repeat split; reflexivity. Qed.

(** One millisecond after the group expired, [loadNearby] at its position
    returns nothing and [getMessages] on its id is empty. *)
Example expired_by_one_millisecond :
  let r := loadNearby manila (1000 + DAY_MS + 1)
             (run backend0 [createStudyRoom; sayHello]) in
  snd r = [] ∧ getMessages (Group.id studyRoom) (fst r) = [].
Proof. vm_compute. split; reflexivity. Qed.

(** * Further properties of the store *)

(** ** Registering and posting *)

(** X1. [backend.createGroup] files a message list under the id of the
    group it adds, and no later step takes the list of a listed group away:
    in every backend reached from the empty store by [create], [send],
    [loadNearby] and the timer, each group of the directory has a message
    list of its own, and that list is what [getMessages] returns for it. *)
Theorem listed_group_has_messages (es : list Event) (g : Group.t) :
  In g (groups (run backend0 es)) →
  ∃ l, messages (run backend0 es) !! Group.id g = Some l ∧
       getMessages (Group.id g) (run backend0 es) = l.
Proof.
  intros [l Hl]%run_has_collection. exists l. split; [done|].
  by apply getMessages_lookup.
Qed.

Lemma listed_group_has_messages_witness :
  In studyRoom (groups (run backend0 evening)) ∧
  ∃ l, messages (run backend0 evening) !! Group.id studyRoom = Some l ∧
       getMessages (Group.id studyRoom) (run backend0 evening) = l.
Proof.
  assert (H : In studyRoom (groups (run backend0 evening)))
    by (vm_compute; left; reflexivity).
  split; [exact H|]. exact (listed_group_has_messages _ _ H).
Defined.

Lemma getMessages_postMessage (gid : list N) (msg : Message.t) (b : Backend)
    (k : list N) :
  getMessages k (fst (postMessage gid msg b)) =
    if decide (gid = k) then getMessages gid b ++ [msg] else getMessages k b.
Proof.
  unfold getMessages at 1. rewrite postMessage_lookup. by case_decide.
Qed.

(** The backend after posting the messages of a list, in order, to one id. *)
Lemma posts_groups (gid : list N) (msgs : list Message.t) (b : Backend) :
  groups (fold_left (λ s m, fst (postMessage gid m s)) msgs b) = groups b.
Proof.
  revert b. induction msgs as [|m msgs IH]; intros b; cbn [fold_left]; [done|].
  by rewrite IH.
Qed.

Lemma posts_getMessages (gid : list N) (msgs : list Message.t) (b : Backend)
    (k : list N) :
  getMessages k (fold_left (λ s m, fst (postMessage gid m s)) msgs b) =
    if decide (gid = k) then getMessages gid b ++ msgs else getMessages k b.
Proof.
  revert b. induction msgs as [|m msgs IH]; intros b; cbn [fold_left].
  - case_decide; [subst; by rewrite app_nil_r | done].
  - rewrite IH, !getMessages_postMessage.
    destruct (decide (gid = k)) as [Heq|Hne]; [|done].
    rewrite decide_True by done. by rewrite <- app_assoc.
Qed.

(** X2. Messages posted one after the other to an id end up behind the
    messages already there, in the order of posting; the message lists of the
    other ids and the directory do not change. *)
Theorem postMessage_appends (gid : list N) (msgs : list Message.t)
    (b : Backend) (k : list N) :
  let b' := fold_left (λ s m, fst (postMessage gid m s)) msgs b in
  groups b' = groups b ∧
  getMessages gid b' = getMessages gid b ++ msgs ∧
  getMessages k b' = if decide (gid = k) then getMessages gid b ++ msgs
                     else getMessages k b.
Proof.
  cbn zeta. split; [apply posts_groups|]. split; [|apply posts_getMessages].
  by rewrite posts_getMessages, decide_True.
Qed.

(** ** More on the sweep *)

Lemma findGroup_is_Some (live : list Group.t) (g : Group.t) :
  In g live → findGroup live (Group.id g) ≠ None.
Proof. intros Hg Hf. by eapply findGroup_None in Hf. Qed.

Lemma filter_expiry_max (t1 t2 : Z) (l : list Group.t) :
  List.filter (λ g, Group.expiresAt g >? t2)
    (List.filter (λ g, Group.expiresAt g >? t1) l) =
  List.filter (λ g, Group.expiresAt g >? Z.max t1 t2) l.
Proof.
  induction l as [|x l IH]; simpl; [done|].
  destruct (Z.gtb_spec (Group.expiresAt x) t1) as [H1|H1]; simpl;
    destruct (Z.gtb_spec (Group.expiresAt x) t2) as [H2|H2];
    destruct (Z.gtb_spec (Group.expiresAt x) (Z.max t1 t2)) as [H3|H3];
    try lia; by rewrite ?IH.
Qed.

Lemma filter_all {A} (f : A → bool) (l : list A) :
  List.filter f l = l ↔ ∀ x, In x l → f x = true.
Proof.
  split.
  - intros H x Hx. rewrite <- H in Hx. by apply filter_In in Hx as [_ Hx].
  - induction l as [|x l IH]; simpl; [done|]. intros H.
    rewrite (H x) by by left. f_equal. apply IH. intros y Hy. apply H. by right.
Qed.

(** X3. The sweep leaves a live group alone: a group of the directory whose
    [expiresAt] is later than [now] is still in the directory afterwards, and
    so is its whole message list. *)
Theorem removeExpired_keeps_live (now : Z) (b : Backend) (g : Group.t) :
  In g (groups b) → now < Group.expiresAt g →
  In g (groups (removeExpired now b)) ∧
  getMessages (Group.id g) (removeExpired now b) = getMessages (Group.id g) b.
Proof.
  intros Hg Hlive.
  assert (Hg' : In g (groups (removeExpired now b)))
    by by apply removeExpired_groups.
  split; [done|]. unfold getMessages. rewrite removeExpired_lookup.
  destruct (findGroup _ (Group.id g)) eqn:Hf; [done|].
  by apply findGroup_is_Some in Hg'.
Qed.

Lemma removeExpired_keeps_live_witness :
  In studyRoom (groups (run backend0 evening)) ∧
  5000 < Group.expiresAt studyRoom ∧
  getMessages (Group.id studyRoom) (removeExpired 5000 (run backend0 evening))
    = [Message.mk (JsString.lit "m4n5b6v") (JsString.lit "hello") 2000
         (JsString.lit "ana") false].
Proof.
  assert (H1 : In studyRoom (groups (run backend0 evening)))
    by (vm_compute; left; reflexivity).
  assert (H2 : 5000 < Group.expiresAt studyRoom) by (vm_compute; reflexivity).
  split; [exact H1|]. split; [exact H2|].
  rewrite (proj2 (removeExpired_keeps_live 5000 _ studyRoom H1 H2)).
  vm_compute. reflexivity.
Defined.

(** X4. Two sweeps in a row amount to one sweep at the later of the two times,
    in whichever order they run. *)
Theorem removeExpired_twice (t1 t2 : Z) (b : Backend) :
  removeExpired t2 (removeExpired t1 b) = removeExpired (Z.max t1 t2) b.
Proof.
  assert (Hg : groups (removeExpired t2 (removeExpired t1 b)) =
               groups (removeExpired (Z.max t1 t2) b))
    by apply filter_expiry_max.
  apply Backend_eq; [exact Hg|].
  apply map_eq. intros k.
  rewrite (removeExpired_lookup t2), Hg, (removeExpired_lookup (Z.max t1 t2)).
  destruct (findGroup _ k) as [g|] eqn:Hf; [|done].
  apply findGroup_Some in Hf as [Hin <-].
  rewrite removeExpired_lookup.
  destruct (findGroup (groups (removeExpired t1 b)) (Group.id g)) eqn:Hf1;
    [done|].
  exfalso. revert Hf1. apply findGroup_is_Some.
  apply removeExpired_groups in Hin as [Hin Hlt].
  apply removeExpired_groups. split; [done | lia].
Qed.

(** X5. The sweep changes nothing exactly when no group has expired and
    every message list belongs to a group of the directory. *)
Theorem removeExpired_unchanged_iff (now : Z) (b : Backend) :
  removeExpired now b = b ↔
  (∀ g, In g (groups b) → now < Group.expiresAt g) ∧
  (∀ k, is_Some (messages b !! k) → ∃ g, In g (groups b) ∧ Group.id g = k).
Proof.
  split.
  - intros H. split.
    + intros g Hg. rewrite <- H in Hg.
      by apply removeExpired_groups in Hg as [_ Hg].
    + intros k [l Hl]. rewrite <- H in Hl.
      rewrite removeExpired_lookup in Hl.
      destruct (findGroup _ k) as [g|] eqn:Hf; [|done].
      apply findGroup_Some in Hf as [Hg Hk]. rewrite H in Hg. by exists g.
  - intros [Hlive Hkeys].
    assert (Hg : groups (removeExpired now b) = groups b).
    { apply filter_all. intros g Hg. apply Z.gtb_lt. by apply Hlive. }
    apply Backend_eq; [exact Hg|].
    apply map_eq. intros k. rewrite removeExpired_lookup, Hg.
    destruct (findGroup (groups b) k) eqn:Hf; [done|].
    destruct (messages b !! k) eqn:Hm; [|done].
    destruct (Hkeys k) as (g & Hin & Hk); [by rewrite Hm|].
    exfalso. subst k. by eapply findGroup_is_Some.
Qed.

(** X6. [loadNearby] returns exactly the live groups within 50 km of the
    position, each as often as the directory holds it: the sort loses and
    repeats none. *)
Theorem loadNearby_complete (loc : Coords) (now : Z) (b : Backend) :
  Permutation (snd (loadNearby loc now b))
    (List.filter
       (λ g, (Group.expiresAt g >? now)
             && isNearby (latitude loc) (longitude loc) 50 g)
       (groups b)) ∧
  ∀ g, In g (snd (loadNearby loc now b)) ↔
       In g (groups b) ∧ now < Group.expiresAt g ∧
       isNearby (latitude loc) (longitude loc) 50 g = true.
Proof.
  split.
  - unfold loadNearby, listGroupsNearby. cbn [fst snd from_option Datatypes.id].
    rewrite <- sort_Permutation. simpl.
    induction (groups b) as [|x l IH]; simpl; [done|].
    destruct (Group.expiresAt x >? now); simpl; [|exact IH].
    destruct (isNearby _ _ _ x); [by constructor | exact IH].
  - intros g. rewrite loadNearby_In, removeExpired_groups. tauto.
Qed.

(** ** The radius *)

Lemma SFleb_key (a b : spec_float) :
  SFleb a b = true ↔
  ∃ ka kb, floatKey a = Some ka ∧ floatKey b = Some kb ∧ lexLe ka kb.
Proof.
  unfold SFleb.
  destruct a as [s|s| |s m e], b as [s'|s'| |s' m' e']; simpl;
    try (split; [discriminate | intros (ka & kb & H1 & H2 & _); discriminate]);
    try destruct s; try destruct s'; simpl;
    try (split; [intros _; do 2 eexists; repeat split; simpl; lia
                | reflexivity]);
    try (split; [discriminate
                | intros (ka & kb & [= <-] & [= <-] & Hlex); simpl in Hlex; lia]).
  - rewrite Pos.compare_cont_spec. simpl.
    destruct (Z.compare_spec e e'), (Pos.compare_spec m m'); simpl;
      (split;
       [ try discriminate; intros _; do 2 eexists; repeat split; simpl; lia
       | try reflexivity;
         intros (ka & kb & [= <-] & [= <-] & Hlex); simpl in Hlex; lia ]).
  - rewrite Pos.compare_cont_spec. simpl.
    destruct (Z.compare_spec e e'), (Pos.compare_spec m m'); simpl;
      (split;
       [ try discriminate; intros _; do 2 eexists; repeat split; simpl; lia
       | try reflexivity;
         intros (ka & kb & [= <-] & [= <-] & Hlex); simpl in Hlex; lia ]).
Qed.

(** [<=] on numbers is transitive (NaN is below and above nothing). *)
Lemma leb_trans (x y z : float) :
  (x <=? y)%float = true → (y <=? z)%float = true → (x <=? z)%float = true.
Proof.
  rewrite !leb_spec, !SFleb_key.
  intros (ka & kb & Ha & Hb & H1) (kb' & kc & Hb' & Hc & H2).
  rewrite Hb in Hb'. injection Hb' as <-.
  exists ka, kc. repeat split; try assumption.
  destruct ka as [[a1 a2] a3], kb as [[b1 b2] b3], kc as [[c1 c2] c3].
  simpl in *. lia.
Qed.

(** X7. Widening the radius loses no group: what [listGroupsNearby] returns
    for a radius, it returns for every larger radius, in the same order. *)
Theorem listGroupsNearby_wider (lat lng r1 r2 : float) (b : Backend) :
  (r1 <=? r2)%float = true →
  (∀ g, In g (listGroupsNearby lat lng (Some r1) b) →
        In g (listGroupsNearby lat lng (Some r2) b)) ∧
  listGroupsNearby lat lng (Some r1) b =
    List.filter (isNearby lat lng r1) (listGroupsNearby lat lng (Some r2) b).
Proof.
  intros Hr. unfold listGroupsNearby. cbn [from_option Datatypes.id].
  assert (Himp : ∀ g, isNearby lat lng r1 g = true → isNearby lat lng r2 g = true).
  { unfold isNearby. intros g Hg. by eapply leb_trans. }
  split.
  - intros g [Hg Hn]%filter_In. apply filter_In. auto.
  - induction (groups b) as [|x l IH]; simpl; [done|].
    destruct (isNearby lat lng r1 x) eqn:H1.
    + rewrite (Himp x H1). simpl. by rewrite H1, IH.
    + destruct (isNearby lat lng r2 x); simpl; [by rewrite H1|]; exact IH.
Qed.

Lemma listGroupsNearby_wider_witness :
  (0 <=? 50)%float = true ∧
  In studyRoom
    (listGroupsNearby (latitude manila) (longitude manila) (Some 50%float)
       (run backend0 evening)).
Proof.
  split; [reflexivity|].
  apply (proj1 (listGroupsNearby_wider _ _ 0 50 _ eq_refl)).
  vm_compute. left. reflexivity.
Defined.

(** ** Sending *)

Lemma trimStart_fixed (s : list N) :
  (∀ c r, s = c :: r → JsString.isWhiteSpace c = false) →
  JsString.trimStart s = s.
Proof.
  destruct s as [|c r]; simpl; [done|]. intros H. by rewrite (H c r).
Qed.

Lemma trimStart_idem (s : list N) :
  JsString.trimStart (JsString.trimStart s) = JsString.trimStart s.
Proof.
  apply trimStart_fixed. intros c r. apply JsStringFacts.trimStart_head.
Qed.

(** The white space that [trimStart] removes. *)
Lemma trimStart_split (s : list N) :
  ∃ w, s = w ++ JsString.trimStart s ∧ JsString.blank w = true.
Proof.
  induction s as [|c s (w & Hs & Hw)]; simpl.
  - by exists [].
  - destruct (JsString.isWhiteSpace c) eqn:Hc.
    + exists (c :: w). simpl. rewrite Hc, Hw. split; [by f_equal | done].
    + by exists [].
Qed.

(** Trimming a trimmed string changes nothing. *)
Lemma trim_idem (s : list N) :
  JsString.trim (JsString.trim s) = JsString.trim s.
Proof.
  unfold JsString.trim at 2 3. unfold JsString.trimEnd.
  set (u := JsString.trimStart s).
  set (t := JsString.trimStart (rev u)).
  assert (Hstart : JsString.trimStart (rev t) = rev t).
  { apply trimStart_fixed. intros c r Hcr.
    destruct (trimStart_split (rev u)) as (w & Hu & _). fold t in Hu.
    apply (f_equal (@rev N)) in Hu. rewrite rev_involutive, rev_app_distr in Hu.
    rewrite Hcr in Hu. simpl in Hu.
    eapply JsStringFacts.trimStart_head. unfold u in Hu. exact Hu. }
  unfold JsString.trim, JsString.trimEnd.
  rewrite Hstart, rev_involutive. unfold t. by rewrite trimStart_idem.
Qed.

(** A stored message as [send] builds it: trimmed text, a display name, and
    the anonymous label on anonymous posts. *)
Lemma send_cases_message (group : Group.t) (nameHandle : list N) (anon : bool)
    (text id : list N) (now : Z) (b : Backend) :
  fst (send group nameHandle anon text id now b) = b ∨
  ∃ msg, JsString.trim (Message.text msg) = Message.text msg ∧
         Message.displayName msg ≠ [] ∧
         (Message.anonymous msg = true →
          Message.displayName msg = JsString.lit "Anonymous" ∧
          Group.anonymousAllowed group = true) ∧
         fst (send group nameHandle anon text id now b) =
           fst (postMessage (Group.id group) msg b).
Proof.
  unfold send.
  destruct (JsString.trim text) as [|c r] eqn:Ht; simpl; [by left|].
  destruct anon; simpl.
  - destruct (Group.anonymousAllowed group) eqn:Ha; simpl; [|by left].
    right. eexists. repeat split; simpl; try done.
    rewrite <- Ht. apply trim_idem.
  - right. eexists. repeat split; simpl; try done.
    + rewrite <- Ht. apply trim_idem.
    + unfold JsString.or_else. by destruct nameHandle.
Qed.

(** X8. A [send] with a text that is not blank, anonymous only where the
    group allows it, stores exactly one message, last in the list of the
    group: the trimmed text, the time and id given, and as display name
    "Anonymous" for an anonymous post, else the handle, else "Guest".  No
    other list and no group changes. *)
Theorem send_posts (group : Group.t) (nameHandle : list N) (anon : bool)
    (text id : list N) (now : Z) (b : Backend) (k : list N) :
  JsString.blank text = false →
  (anon = true → Group.anonymousAllowed group = true) →
  let msg :=
    Message.mk id (JsString.trim text) now
      (if anon then JsString.lit "Anonymous"
       else match nameHandle with
            | [] => JsString.lit "Guest"
            | _ :: _ => nameHandle
            end)
      anon in
  snd (send group nameHandle anon text id now b) = SendPosted msg ∧
  groups (fst (send group nameHandle anon text id now b)) = groups b ∧
  getMessages k (fst (send group nameHandle anon text id now b)) =
    if decide (Group.id group = k)
    then getMessages (Group.id group) b ++ [msg]
    else getMessages k b.
Proof.
  intros Hb Ha. cbn zeta.
  assert (Ht : JsString.truthy (JsString.trim text) = true).
  { destruct (JsString.trim text) eqn:Ht; [|done].
    apply JsStringFacts.trim_nil_iff in Ht. congruence. }
  assert (Hpol : anon && negb (Group.anonymousAllowed group) = false).
  { destruct anon; [|done]. by rewrite Ha. }
  unfold send. rewrite Ht, Hpol. cbn [negb].
  assert (Hname : JsString.or_else nameHandle (JsString.lit "Guest") =
                  match nameHandle with
                  | [] => JsString.lit "Guest"
                  | _ :: _ => nameHandle
                  end) by by destruct nameHandle.
  rewrite Hname. split; [done|]. split; [done|].
  apply getMessages_postMessage.
Qed.

Lemma send_posts_witness :
  JsString.blank (JsString.lit " hello ") = false ∧
  getMessages (Group.id studyRoom)
    (fst (send studyRoom [] false (JsString.lit " hello ")
            (JsString.lit "m4n5b6v") 2000 (run backend0 [createStudyRoom])))
  = [hello].
Proof.
  split; [reflexivity|].
  pose proof (send_posts studyRoom [] false (JsString.lit " hello ")
                (JsString.lit "m4n5b6v") 2000 (run backend0 [createStudyRoom])
                (Group.id studyRoom) eq_refl) as H.
  destruct H as (_ & _ & H); [discriminate|].
  rewrite H. vm_compute. reflexivity.
Defined.

(** X9. In every backend that a run reaches, each stored message has a text
    that trimming leaves unchanged and a display name that is not empty, and
    each anonymous message carries the display name "Anonymous". *)
Theorem stored_messages_wellformed (es : list Event) (k : list N)
    (msg : Message.t) :
  In msg (getMessages k (run backend0 es)) →
  JsString.trim (Message.text msg) = Message.text msg ∧
  Message.displayName msg ≠ [] ∧
  (Message.anonymous msg = true →
   Message.displayName msg = JsString.lit "Anonymous").
Proof.
  intros H. apply getMessages_In in H as (l & Hl & Hin).
  revert k l Hl Hin. apply run_ind; [done|].
  intros b e _ Hb k l Hl Hin.
  destruct e as [name aa ib my dev id now|group nh anon text id now|loc now|now].
  - unfold step, create in Hl. rewrite createGroup_lookup in Hl.
    case_decide; [by simplify_eq | by eapply Hb].
  - unfold step in Hl.
    destruct (send_cases_message group nh anon text id now b)
      as [Heq|(m & Ht & Hd & Ha & Heq)]; rewrite Heq in Hl; [by eapply Hb|].
    rewrite postMessage_lookup in Hl. case_decide; [|by eapply Hb].
    simplify_eq. apply in_app_iff in Hin as [Hin|[<-|[]]].
    + destruct (messages b !! Group.id group) eqn:Hm; [by eapply Hb | done].
    + repeat split; try done. intros Hanon. by apply Ha.
  - unfold step, loadNearby in Hl. cbn [fst] in Hl.
    rewrite removeExpired_lookup in Hl.
    destruct (findGroup _ k); [by eapply Hb | done].
  - unfold step in Hl. rewrite removeExpired_lookup in Hl.
    destruct (findGroup _ k); [by eapply Hb | done].
Qed.

Lemma stored_messages_wellformed_witness :
  In (Message.mk (JsString.lit "m4n5b6v") (JsString.lit "hello") 2000
        (JsString.lit "ana") false)
    (getMessages (Group.id studyRoom) (run backend0 evening)) ∧
  JsString.trim (JsString.lit "hello") = JsString.lit "hello".
Proof.
  assert (H : In (Message.mk (JsString.lit "m4n5b6v") (JsString.lit "hello")
                    2000 (JsString.lit "ana") false)
                (getMessages (Group.id studyRoom) (run backend0 evening)))
    by (vm_compute; left; reflexivity).
  split; [exact H|].
  exact (proj1 (stored_messages_wellformed _ _ _ H)).
Defined.

(** ** The remaining time *)

Lemma timeLeftParts_eq (expiryTs now : Z) :
  let d := Z.max 0 (expiryTs - now) in
  timeLeftParts expiryTs now =
    (d / 3600000, d mod 3600000 / 60000, d mod 60000 / 1000).
Proof.
  cbn zeta. unfold timeLeftParts.
  rewrite !Z.rem_mod_nonneg by lia. reflexivity.
Qed.

(** X10. Once the expiry time has come, [timeLeft] prints "0h 0m 0s". *)
Theorem timeLeft_expired (expiryTs now : Z) :
  expiryTs <= now → timeLeft expiryTs now = JsString.lit "0h 0m 0s".
Proof.
  intros H. unfold timeLeft. rewrite timeLeftParts_eq.
  replace (Z.max 0 (expiryTs - now)) with 0 by lia. reflexivity.
Qed.

Lemma timeLeft_expired_witness :
  Group.expiresAt studyRoom <= 1000 + DAY_MS ∧
  timeLeft (Group.expiresAt studyRoom) (1000 + DAY_MS) = JsString.lit "0h 0m 0s".
Proof.
  assert (H : Group.expiresAt studyRoom <= 1000 + DAY_MS)
    by (vm_compute; discriminate).
  split; [exact H | exact (timeLeft_expired _ _ H)].
Defined.

(** X11. The three numbers of [timeLeft] are the remaining whole seconds
    split into hours, minutes below 60 and seconds below 60. *)
Theorem timeLeftParts_split (expiryTs now : Z) :
  let '(hours, minutes, seconds) := timeLeftParts expiryTs now in
  0 <= hours ∧ 0 <= minutes < 60 ∧ 0 <= seconds < 60 ∧
  hours * 3600 + minutes * 60 + seconds = Z.max 0 (expiryTs - now) / 1000.
Proof.
  rewrite timeLeftParts_eq. cbn zeta.
  set (d := Z.max 0 (expiryTs - now)).
  assert (Hd : 0 <= d) by (unfold d; lia).
  clearbody d. Z.to_euclidean_division_equations. lia.
Qed.

(** ** The screens *)

Section AppFacts.
Implicit Types (w : World) (cs : list Group.t) (e : AppEvent).

Lemma appRun_snoc w es e : appRun w (es ++ [e]) = appStep (appRun w es) e.
Proof. unfold appRun. by rewrite fold_left_app. Qed.

Lemma createdGroups_snoc w es e :
  createdGroups w (es ++ [e]) =
    createdGroups w es ++
      match createdBy (appRun w es) e with Some g => [g] | None => [] end.
Proof.
  revert w. induction es as [|e' es IH]; intros w; simpl.
  - by destruct (createdBy w e).
  - rewrite IH. by destruct (createdBy w e').
Qed.

Lemma appInv_mono w cs cs' : appInv w cs → appInv w (cs ++ cs').
Proof.
  intros (H1 & H2 & H3 & H4 & H5). repeat split.
  - intros g Hg. apply in_app_iff. left. by apply H1.
  - intros g Hg. apply in_app_iff. left. by apply H2.
  - intros g Hg. apply in_app_iff. left. by apply H3.
  - intros k l Hl. destruct (H4 k l Hl) as (g & Hg & Hk).
    exists g. split; [|done]. apply in_app_iff. by left.
  - intros k l m Hl Hm Ha. destruct (H5 k l m Hl Hm Ha) as (g & Hg & Hk).
    exists g. split; [|done]. apply in_app_iff. by left.
Qed.

(** A change of view, handle or selection keeps the tie, when the new
    selection is a created group. *)
Lemma appInv_app w cs (a : SparkApp.t) :
  appInv w cs →
  (∀ g, SparkApp.selectedGroup a = Some g → In g cs) →
  SparkApp.groups a = SparkApp.groups (app w) →
  appInv (mkWorld a (store w)) cs.
Proof.
  intros (H1 & H2 & H3 & H4 & H5) Hsel Hgr. repeat split; simpl; try done.
  intros g. rewrite Hgr. apply H2.
Qed.

Lemma appInv_sweep w cs now :
  appInv w cs → appInv (mkWorld (app w) (removeExpired now (store w))) cs.
Proof.
  intros (H1 & H2 & H3 & H4 & H5). repeat split; try done.
  - intros g Hg. apply H3. by apply removeExpired_groups in Hg as [Hg _].
  - intros k l. cbn [store]. rewrite removeExpired_lookup.
    destruct (findGroup _ k); [apply H4 | done].
  - intros k l m. cbn [store]. rewrite removeExpired_lookup.
    destruct (findGroup _ k); [apply H5 | done].
Qed.

Lemma appInv_loadNearby w cs loc now :
  appInv w cs → appInv (appLoadNearby loc now w) cs.
Proof.
  intros H. apply (appInv_sweep _ _ now) in H.
  destruct H as (H1 & H2 & H3 & H4 & H5).
  unfold appLoadNearby, loadNearby. repeat split; try done.
  intros g Hg. cbn in Hg. apply sort_In in Hg.
  apply filter_In in Hg as [Hg _]. by apply H3.
Qed.

(** Registering a new group and selecting it keeps the tie. *)
Lemma appInv_created w cs name aa ib my dev id now :
  appInv w cs →
  appInv
    (mkWorld
       (setView ViewChat
          (setSelectedGroup
             (Some (snd (create name aa ib my dev id now (store w)))) (app w)))
       (fst (create name aa ib my dev id now (store w))))
    (cs ++ [snd (create name aa ib my dev id now (store w))]).
Proof.
  intros H. unfold create, createGroup. cbn [fst snd].
  set (g := Group.mk id _ now _ _ _ aa _).
  apply (appInv_mono _ _ [g]) in H.
  destruct H as (H1 & H2 & H3 & H4 & H5). repeat split.
  - intros x [= <-]. apply in_app_iff. right. by left.
  - done.
  - intros x [Hx|[<-|[]]]%in_app_iff; [by apply H3|].
    apply in_app_iff. right. by left.
  - intros k l. cbn [store messages]. rewrite lookup_insert.
    case_decide; [|apply H4]. intros _. exists g.
    split; [|done]. apply in_app_iff. right. by left.
  - intros k l m. cbn [store messages]. rewrite lookup_insert.
    case_decide; [|apply H5]. by intros [= <-] [].
Qed.

Lemma appInv_step w cs e :
  appInv w cs →
  appInv (appStep w e)
    (cs ++ match createdBy w e with Some g => [g] | None => [] end).
Proof.
  intros H.
  destruct e as [device now|now|now| | |i|name aa ib id now now'
                |name aa ib device id now| |h|anon text id now];
    cbn [createdBy appStep].
  - rewrite app_nil_r. unfold located. apply appInv_loadNearby.
    apply (appInv_app w); [done| |done]. apply H.
  - rewrite app_nil_r.
    destruct (SparkApp.myLocation (app w)); [|by destruct w].
    by apply appInv_loadNearby.
  - rewrite app_nil_r. by apply appInv_sweep.
  - rewrite app_nil_r.
    destruct (SparkApp.view (app w)); [|by destruct w|by destruct w].
    apply (appInv_app w); [done| |done]. apply H.
  - rewrite app_nil_r.
    destruct (SparkApp.view (app w)); [by destruct w| |by destruct w].
    by apply (appInv_app w).
  - rewrite app_nil_r.
    destruct (SparkApp.view (app w)); [|by destruct w|by destruct w].
    destruct (SparkApp.groups (app w) !! i) as [item|] eqn:Hi; [|by destruct w].
    apply (appInv_app w); [done| |done].
    intros g [= <-]. destruct H as (_ & H2 & _). apply H2.
    apply list_elem_of_In. by eapply list_elem_of_lookup_2.
  - destruct (SparkApp.view (app w));
      try (rewrite app_nil_r; by destruct w).
    destruct (SparkApp.myLocation (app w)) as [loc|];
      [|rewrite app_nil_r; by destruct w].
    rewrite (surjective_pairing (create _ _ _ _ _ _ _ _)).
    unfold onCreated. cbn [app store].
    apply appInv_loadNearby. by apply appInv_created.
  - rewrite (surjective_pairing (create _ _ _ _ _ _ _ _)).
    unfold onCreated. cbn [app store]. by apply appInv_created.
  - rewrite app_nil_r. destruct (chatGroup (app w)); [|by destruct w].
    apply (appInv_app w); [done| |done]. apply H.
  - rewrite app_nil_r. destruct (chatGroup (app w)); [|by destruct w].
    apply (appInv_app w); [done| |done]. apply H.
  - rewrite app_nil_r.
    destruct (chatGroup (app w)) as [group|] eqn:Hc; [|by destruct w].
    assert (Hgroup : In group cs).
    { destruct H as (H1 & _). apply H1.
      unfold chatGroup in Hc. by destruct (SparkApp.view (app w)). }
    destruct (send_cases_message group (SparkApp.nameHandle (app w)) anon text
                id now (store w)) as [->|(msg & _ & _ & Ha & ->)];
      [by destruct w|].
    destruct H as (H1 & H2 & H3 & H4 & H5). repeat split; try done.
    + intros k l. cbn [store]. rewrite postMessage_lookup.
      case_decide; [|apply H4]. intros _. by exists group.
    + intros k l m. cbn [store]. rewrite postMessage_lookup.
      case_decide; [|apply H5]. intros [= <-] Hm Hanon.
      apply in_app_iff in Hm as [Hm|[<-|[]]].
      * destruct (messages (store w) !! Group.id group) eqn:Hl; [|done].
        subst k. by eapply H5.
      * exists group. repeat split; try done. by apply Ha.
Qed.

Lemma appInv_run es :
  appInv (appRun world0 es) (createdGroups world0 es).
Proof.
  induction es as [|e es IH] using rev_ind.
  - repeat split; try done; intros k l m; by rewrite lookup_empty.
  - rewrite appRun_snoc, createdGroups_snoc. by apply appInv_step.
Qed.

(** Each created group has its 24 hours. *)
Lemma createdGroups_lifetime w es g :
  In g (createdGroups w es) →
  Group.expiresAt g = Group.createdAt g + DAY_MS.
Proof.
  revert w. induction es as [|e es IH]; intros w; simpl; [done|].
  destruct (createdBy w e) as [x|] eqn:Hx; [|apply IH].
  intros [<-|Hg]; [|by eapply IH].
  destruct e; try discriminate; cbn [createdBy] in Hx.
  - destruct (SparkApp.view (app w)); try discriminate.
    destruct (SparkApp.myLocation (app w)); [|discriminate].
    by injection Hx as <-.
  - by injection Hx as <-.
Qed.

(** When the view is the chat, a group is selected. *)
Lemma chat_selected es :
  SparkApp.view (app (appRun world0 es)) = ViewChat →
  is_Some (SparkApp.selectedGroup (app (appRun world0 es))).
Proof.
  induction es as [|e es IH] using rev_ind; [done|].
  rewrite appRun_snoc. set (w := appRun world0 es) in *.
  destruct e as [device now|now|now| | |i|name aa ib id now now'
                |name aa ib device id now| |h|anon text id now];
    unfold appStep.
  - exact IH.
  - destruct (SparkApp.myLocation (app w)); exact IH.
  - exact IH.
  - destruct (SparkApp.view (app w)) eqn:Hv in |- *; [done | exact IH..].
  - destruct (SparkApp.view (app w)) eqn:Hv in |- *; [exact IH | done | exact IH].
  - destruct (SparkApp.view (app w)) eqn:Hv in |- *; [|exact IH..].
    destruct (SparkApp.groups (app w) !! i); [by eexists | exact IH].
  - destruct (SparkApp.view (app w)) eqn:Hv in |- *; [exact IH| |exact IH].
    destruct (SparkApp.myLocation (app w)); [|exact IH].
    unfold create, createGroup, onCreated. intros _. by eexists.
  - unfold create, createGroup, onCreated. intros _. by eexists.
  - destruct (chatGroup (app w)); [done | exact IH].
  - destruct (chatGroup (app w)); exact IH.
  - destruct (chatGroup (app w)); exact IH.
Qed.

(** The list on screen is always a sorted one. *)
Lemma shown_sorted es :
  StronglySorted (λ x y, Group.expiresAt x <= Group.expiresAt y)
    (SparkApp.groups (app (appRun world0 es))).
Proof.
  induction es as [|e es IH] using rev_ind; [constructor|].
  rewrite appRun_snoc. set (w := appRun world0 es) in *.
  destruct e as [device now|now|now| | |i|name aa ib id now now'
                |name aa ib device id now| |h|anon text id now];
    unfold appStep.
  - apply byExpiry_sorted.
  - destruct (SparkApp.myLocation (app w)); [apply byExpiry_sorted | exact IH].
  - exact IH.
  - destruct (SparkApp.view (app w)); exact IH.
  - destruct (SparkApp.view (app w)); exact IH.
  - destruct (SparkApp.view (app w)); try exact IH.
    destruct (SparkApp.groups (app w) !! i); exact IH.
  - destruct (SparkApp.view (app w)); try exact IH.
    destruct (SparkApp.myLocation (app w)); [|exact IH].
    apply byExpiry_sorted.
  - exact IH.
  - destruct (chatGroup (app w)); exact IH.
  - destruct (chatGroup (app w)); exact IH.
  - destruct (chatGroup (app w)); exact IH.
Qed.

End AppFacts.

(** X12. Whenever the view is the chat, a group is selected, so [ChatView]
    is on screen; the group is one that [create] built, with its 24 hours. *)
Theorem chat_shows_created_group (es : list AppEvent) :
  SparkApp.view (app (appRun world0 es)) = ViewChat →
  ∃ g, SparkApp.selectedGroup (app (appRun world0 es)) = Some g ∧
       chatGroup (app (appRun world0 es)) = Some g ∧
       In g (createdGroups world0 es) ∧
       Group.expiresAt g - Group.createdAt g = 86400000.
Proof.
  intros Hv. destruct (chat_selected es Hv) as [g Hg]. exists g.
  destruct (appInv_run es) as (H1 & _).
  assert (Hc : In g (createdGroups world0 es)) by by apply H1.
  repeat split; try done.
  - unfold chatGroup. by rewrite Hv.
  - rewrite (createdGroups_lifetime _ _ _ Hc). unfold DAY_MS. lia.
Qed.

Lemma chat_shows_created_group_witness :
  SparkApp.view (app (appRun world0 session)) = ViewChat ∧
  ∃ g, SparkApp.selectedGroup (app (appRun world0 session)) = Some g ∧
       Group.expiresAt g - Group.createdAt g = 86400000.
Proof.
  assert (H : SparkApp.view (app (appRun world0 session)) = ViewChat)
    by (vm_compute; reflexivity).
  split; [exact H|].
  destruct (chat_shows_created_group session H) as (g & Hg & _ & _ & Hl).
  exists g. split; [exact Hg | exact Hl].
Defined.

(** X13. The list of groups on screen is at all times sorted by
    non-decreasing [expiresAt], and made of groups that [create] built. *)
Theorem shown_groups_sorted (es : list AppEvent) :
  StronglySorted (λ x y, Group.expiresAt x <= Group.expiresAt y)
    (SparkApp.groups (app (appRun world0 es))) ∧
  Forall (λ g, In g (createdGroups world0 es) ∧
               Group.expiresAt g = Group.createdAt g + 86400000)
    (SparkApp.groups (app (appRun world0 es))).
Proof.
  split; [apply shown_sorted|].
  apply Forall_forall. intros g Hg%list_elem_of_In.
  destruct (appInv_run es) as (_ & H2 & _).
  assert (Hc : In g (createdGroups world0 es)) by by apply H2.
  split; [done|]. by rewrite (createdGroups_lifetime _ _ _ Hc).
Qed.

(** X14. When the created groups have distinct ids, a group that does not
    allow anonymous posts never holds an anonymous message. *)
Theorem named_only_never_anonymous (es : list AppEvent) (g : Group.t)
    (m : Message.t) :
  NoDup (map Group.id (createdGroups world0 es)) →
  In g (createdGroups world0 es) →
  Group.anonymousAllowed g = false →
  In m (getMessages (Group.id g) (store (appRun world0 es))) →
  Message.anonymous m = false.
Proof.
  intros Hnd Hg Hna Hm.
  apply getMessages_In in Hm as (l & Hl & Hm).
  destruct (Message.anonymous m) eqn:Ha; [|done].
  destruct (appInv_run es) as (_ & _ & _ & _ & H5).
  destruct (H5 _ _ _ Hl Hm Ha) as (g' & Hg' & Hid & Hallowed).
  assert (g' = g) by by eapply NoDup_ids_unique. subst g'. congruence.
Qed.

Lemma named_only_never_anonymous_witness :
  NoDup (map Group.id (createdGroups world0 session)) ∧
  In studyRoom (createdGroups world0 session) ∧
  Group.anonymousAllowed studyRoom = false ∧
  In (Message.mk (JsString.lit "m4n5b6v") (JsString.lit "hello") 62000
        (JsString.lit "ana") false)
    (getMessages (Group.id studyRoom) (store (appRun world0 session))) ∧
  Message.anonymous
    (Message.mk (JsString.lit "m4n5b6v") (JsString.lit "hello") 62000
       (JsString.lit "ana") false) = false.
Proof.
  assert (H1 : NoDup (map Group.id (createdGroups world0 session)))
    by (apply (bool_decide_unpack _); vm_compute; exact I).
  assert (H2 : In studyRoom (createdGroups world0 session))
    by (vm_compute; left; reflexivity).
  assert (H3 : Group.anonymousAllowed studyRoom = false)
    by (vm_compute; reflexivity).
  assert (H4 : In (Message.mk (JsString.lit "m4n5b6v") (JsString.lit "hello")
                     62000 (JsString.lit "ana") false)
                 (getMessages (Group.id studyRoom)
                    (store (appRun world0 session))))
    by (vm_compute; left; reflexivity).
  repeat (split; [assumption|]).
  exact (named_only_never_anonymous session studyRoom _ H1 H2 H3 H4).
Defined.

(** X15. Every message list of the backend is filed under the id of a group
    that [create] built: the screens post to no other id. *)
Theorem collections_of_created_groups (es : list AppEvent) (k : list N) :
  is_Some (messages (store (appRun world0 es)) !! k) →
  ∃ g, In g (createdGroups world0 es) ∧ Group.id g = k.
Proof.
  intros [l Hl]. destruct (appInv_run es) as (_ & _ & _ & H4 & _).
  by eapply H4.
Qed.

Lemma collections_of_created_groups_witness :
  is_Some (messages (store (appRun world0 session)) !! Group.id studyRoom) ∧
  ∃ g, In g (createdGroups world0 session) ∧ Group.id g = Group.id studyRoom.
Proof.
  assert (H : is_Some (messages (store (appRun world0 session))
                         !! Group.id studyRoom))
    by (vm_compute; eexists; reflexivity).
  split; [exact H | exact (collections_of_created_groups _ _ H)].
Defined.

(** X16. For a group on screen, in the list or in the chat, and a time not
    before its creation, the numbers of [timeLeft] never exceed 24 hours;
    at the time of creation [timeLeft] prints "24h 0m 0s". *)
Theorem timeLeft_within_a_day (es : list AppEvent) (g : Group.t) (t : Z) :
  In g (SparkApp.groups (app (appRun world0 es))) ∨
    SparkApp.selectedGroup (app (appRun world0 es)) = Some g →
  Group.createdAt g <= t →
  (let '(hours, minutes, seconds) := timeLeftParts (Group.expiresAt g) t in
   hours * 3600 + minutes * 60 + seconds <= 86400 ∧ hours <= 24) ∧
  timeLeft (Group.expiresAt g) (Group.createdAt g) = JsString.lit "24h 0m 0s".
Proof.
  intros Hscreen Ht.
  assert (Hc : In g (createdGroups world0 es)).
  { destruct (appInv_run es) as (H1 & H2 & _).
    destruct Hscreen; [by apply H2 | by apply H1]. }
  apply createdGroups_lifetime in Hc. unfold DAY_MS in Hc. split.
  - rewrite timeLeftParts_eq. cbn zeta.
    set (d := Z.max 0 (Group.expiresAt g - t)).
    assert (Hd : 0 <= d <= 86400000) by (unfold d; lia).
    clearbody d. Z.to_euclidean_division_equations. lia.
  - unfold timeLeft. rewrite timeLeftParts_eq.
    replace (Z.max 0 (Group.expiresAt g - Group.createdAt g)) with 86400000
      by lia.
    reflexivity.
Qed.

Lemma timeLeft_within_a_day_witness :
  SparkApp.selectedGroup (app (appRun world0 session)) = Some studyRoom ∧
  Group.createdAt studyRoom <= 62000 ∧
  timeLeft (Group.expiresAt studyRoom) 62000 = JsString.lit "23h 58m 59s" ∧
  timeLeft (Group.expiresAt studyRoom) (Group.createdAt studyRoom)
    = JsString.lit "24h 0m 0s".
Proof.
  assert (H1 : SparkApp.selectedGroup (app (appRun world0 session))
               = Some studyRoom) by (vm_compute; reflexivity).
  assert (H2 : Group.createdAt studyRoom <= 62000) by (vm_compute; discriminate).
  split; [exact H1|]. split; [exact H2|]. split; [vm_compute; reflexivity|].
  exact (proj2 (timeLeft_within_a_day session studyRoom 62000
                  (or_intror H1) H2)).
Defined.

(** X17. A [create] ends in the chat of the group it has just built, and
    that chat starts without messages, whatever the id was used for before.
    Pressed with the position known, it builds the group at that position
    at once.  Resumed after the wait for the device, it builds the group at
    the device position, or at the fallback when the device gave none, and
    leaves the list on screen as it was, even if the position has been
    settled in the meantime. *)
Theorem create_opens_empty_chat (w : World) (loc : Coords) (name : list N)
    (anonAllowed : bool) (icebreaker : list N) (device : option Coords)
    (id : list N) (now now' : Z) :
  (SparkApp.view (app w) = ViewCreate →
   SparkApp.myLocation (app w) = Some loc →
   let w' := appStep w (PressCreate name anonAllowed icebreaker id now now') in
   ∃ g, chatGroup (app w') = Some g ∧
        g = snd (create name anonAllowed icebreaker (Some loc) None id now
                   (store w)) ∧
        Group.id g = id ∧
        Group.lat g = latitude loc ∧ Group.lng g = longitude loc ∧
        getMessages id (store w') = []) ∧
  (let w' := appStep w (CreateResolved name anonAllowed icebreaker device id now) in
   ∃ g, chatGroup (app w') = Some g ∧
        g = snd (create name anonAllowed icebreaker None device id now
                   (store w)) ∧
        Group.id g = id ∧
        Group.lat g = latitude (default manila device) ∧
        Group.lng g = longitude (default manila device) ∧
        getMessages id (store w') = [] ∧
        SparkApp.groups (app w') = SparkApp.groups (app w)).
Proof.
  split.
  - intros Hv Hloc. cbn zeta. unfold appStep. rewrite Hv, Hloc.
    unfold create, createGroup, onCreated. cbn [app store snd].
    eexists. split; [reflexivity|]. repeat split.
    unfold getMessages, appLoadNearby, loadNearby. cbn [store fst].
    rewrite (removeExpired_lookup now' (mkBackend _ _)).
    destruct (findGroup _ id); [|done]. cbn. by rewrite lookup_insert_eq.
  - cbn zeta. unfold appStep, create, createGroup, onCreated.
    cbn [app store snd].
    eexists. split; [reflexivity|]. repeat split.
    unfold getMessages. cbn. by rewrite lookup_insert_eq.
Qed.

Lemma create_opens_empty_chat_witness :
  SparkApp.view (app (appRun world0 [Located None 500; PressNew])) = ViewCreate ∧
  SparkApp.myLocation (app (appRun world0 [Located None 500; PressNew]))
    = Some manila ∧
  chatGroup
    (app (appStep (appRun world0 [Located None 500; PressNew])
            (PressCreate (JsString.lit "Study grind room") false icebreaker0
               (JsString.lit "k3j9x2a") 1000 1001))) = Some studyRoom.
Proof.
  assert (H1 : SparkApp.view (app (appRun world0 [Located None 500; PressNew]))
               = ViewCreate) by (vm_compute; reflexivity).
  assert (H2 : SparkApp.myLocation
                 (app (appRun world0 [Located None 500; PressNew]))
               = Some manila) by (vm_compute; reflexivity).
  split; [exact H1|]. split; [exact H2|].
  destruct (proj1 (create_opens_empty_chat _ manila
                     (JsString.lit "Study grind room") false icebreaker0 None
                     (JsString.lit "k3j9x2a") 1000 1001) H1 H2)
    as (g & Hg & -> & _).
  rewrite Hg. vm_compute. reflexivity.
Defined.

(** X18. Pressed while the position is known (finite coordinates), a
    [create] puts the group it builds in the list on screen, as long as the
    reload happens within the 24 hours of the group: a new group is near its
    creator. *)
Theorem created_group_is_listed (w : World) (loc : Coords) (name : list N)
    (anonAllowed : bool) (icebreaker : list N) (id : list N) (now now' : Z) :
  SparkApp.view (app w) = ViewCreate →
  SparkApp.myLocation (app w) = Some loc →
  isFinite (latitude loc) = true → isFinite (longitude loc) = true →
  now' < now + DAY_MS →
  In (snd (create name anonAllowed icebreaker (Some loc) None id now (store w)))
    (SparkApp.groups
       (app (appStep w (PressCreate name anonAllowed icebreaker id now now')))).
Proof.
  intros Hv Hloc Hlat Hlng Hlive.
  unfold appStep. rewrite Hv, Hloc.
  unfold create, createGroup, onCreated.
  cbn [app store snd].
  unfold appLoadNearby, loadNearby, listGroupsNearby.
  cbn [app store setGroups SparkApp.groups from_option Datatypes.id].
  apply sort_In, filter_In. split.
  - apply removeExpired_groups. cbn [groups Group.expiresAt]. split; [|lia].
    apply in_app_iff. right. by left.
  - unfold isNearby. by rewrite distanceKm_same.
Qed.

Lemma created_group_is_listed_witness :
  SparkApp.view (app (appRun world0 [Located None 500; PressNew])) = ViewCreate ∧
  SparkApp.myLocation (app (appRun world0 [Located None 500; PressNew]))
    = Some manila ∧
  isFinite (latitude manila) = true ∧ isFinite (longitude manila) = true ∧
  1001 < 1000 + DAY_MS ∧
  In studyRoom
    (SparkApp.groups
       (app (appStep (appRun world0 [Located None 500; PressNew])
               (PressCreate (JsString.lit "Study grind room") false icebreaker0
                  (JsString.lit "k3j9x2a") 1000 1001)))).
Proof.
  assert (H0 : SparkApp.view (app (appRun world0 [Located None 500; PressNew]))
               = ViewCreate) by (vm_compute; reflexivity).
  assert (H1 : SparkApp.myLocation
                 (app (appRun world0 [Located None 500; PressNew]))
               = Some manila) by (vm_compute; reflexivity).
  assert (H2 : isFinite (latitude manila) = true) by (vm_compute; reflexivity).
  assert (H3 : isFinite (longitude manila) = true) by (vm_compute; reflexivity).
  assert (H4 : 1001 < 1000 + DAY_MS) by (vm_compute; reflexivity).
  repeat (split; [assumption|]).
  exact (created_group_is_listed _ manila (JsString.lit "Study grind room")
           false icebreaker0 (JsString.lit "k3j9x2a") 1000 1001
           H0 H1 H2 H3 H4).
Defined.
